(** * HSPiP batch pipeline and PubChem lookup: model and properties

    A shallow embedding of [HSPiP_CLI_v7.py] (validation, the batch/retry
    orchestrator, checkpointing and assembly) and of
    [get_smiles_InChI_IUPAC_props.py] (the PubChem property fetch and its
    command-line printer).

    External collaborators (RDKit, the HSPiP executable, the file system,
    the PubChem service) are oracles indexed by a call clock; Python
    exceptions are values of an error type; the logger, [time.sleep], the
    clipboard and the tables written to disk are recorded in a trace. *)

From stdpp Require Import base list strings pretty.
From Stdlib Require Import Lia.

Open Scope string_scope.
Open Scope list_scope.
Open Scope nat_scope.

(** ** Python exceptions and outcomes *)

Inductive PyExc : Type :=
| NameError (name : string)
| UnboundLocalError (name : string)
| IndexError
| ValueError.

(** The result of a pure computation that may raise. *)
Inductive Result (A : Type) : Type :=
| Ok (a : A)
| Err (e : PyExc).
Arguments Ok {A} a.
Arguments Err {A} e.

(** The outcome of running a statement from state [S]: normal completion
    with a value, or an exception propagating with the state it left. *)
Inductive Outcome (S A : Type) : Type :=
| Done (a : A) (s : S)
| Raised (e : PyExc) (s : S).
Arguments Done {S A} a s.
Arguments Raised {S A} e s.

(** Sequencing: an exception skips the rest. *)
Definition and_then {S A B} (m : Outcome S A) (k : A → S → Outcome S B) : Outcome S B :=
  match m with
  | Done a s => k a s
  | Raised e s => Raised e s
  end.

(** ** The fixed property schema *)

(** A table cell: [None] is pandas' NaN. *)
Definition Cell : Type := option string.

(** A one-row data frame: column name and value, in column order. *)
Definition Row : Type := list (string * Cell).

(** A joined table: the SMILES column next to the property columns. *)
Definition Table : Type := list (string * Row).

Definition columns : list string :=
  [ "HSPiP_SMILES"; "Formula"; "D"; "P"; "H"; "HDon"; "HAcc"; "MWt"; "Density"; "MVol";
    "Area"; "Ovality"; "BPt"; "MPt"; "Tc"; "Pc"; "Vc"; "Zc"; "AntA"; "AntB";
    "AntC"; "Ant1T"; "LogKow"; "LogS"; "Henry"; "LogOHR"; "RI"; "Hfus"; "HvBPt";
    "Trouton"; "RER"; "Abra"; "Abrb"; "EdmiW"; "Parachor"; "RD"; "Cp"; "log";
    "Cond"; "SurfTen"; "HeavyAtom"; "C"; "H1"; "Br"; "Cl"; "F"; "I"; "N"; "O";
    "P1"; "S"; "Si"; "B"; "MaxPc"; "MinMc"; "Sym"; "MCI"; "Hcomb"; "Hform";
    "Gform"; "FGList" ].

(** [pd.DataFrame({col: [np.nan] for col in [...]})] *)
Definition empty_df : Row := map (λ col, (col, None)) columns.

(** ** Work items, rounds and configuration *)

Definition WorkItem : Type := string * nat.

Inductive Round : Type := initial | retry.

Record Config : Type := {
  batch_size : nat;
  max_retries : nat;
  max_output_retries : nat;
  retry_delay : nat;
  clipboard_delay : nat
}.

(** ** The environment *)

Inductive MolResult : Type :=
| MolNone
| MolOk (mol : string)
| MolRaises.

(** [open(path, 'w')] may fail before the file exists, or a later write
    may fail once it does. *)
Inductive CreateResult : Type :=
| Created
| OpenFails
| WriteFails.

(** [os.path.exists(p) and os.path.getsize(p) > 0]; [getsize] raises
    when the file vanishes between the two calls. *)
Inductive CheckResult : Type :=
| OutputReady
| OutputMissing
| CheckRaises.

(** Each oracle is asked at the current value of the call clock. *)
Record Env : Type := {
  MolFromSmiles : nat → string → MolResult;
  MolToSmiles : nat → string → option string;
  open_write : nat → string → CreateResult;
  subprocess_run : nat → string → bool;
  output_check : nat → CheckResult;
  read_first_row : nat → option Row
}.

(** ** The world: clock, script files, globals, trace *)

Inductive LogMsg : Type :=
| ProcessingBatch (batch_count : nat)
| FailedToCanonicalize (original_index : nat)
| SuccessfullyProcessed (original_index : nat)
| ErrorReadingOutput (original_index : nat)
| OutputMissingOrEmpty (original_index : nat)
| MaxOutputRetriesReached (original_index : nat)
| ErrorProcessing (original_index : nat)
| FailedToProcess (original_index : nat)
| InvalidSmiles (original_index : nat)
| ValidSmiles (original_index : nat)
| ErrorValidating (original_index : nat)
| StartingSecondRound (n : nat)
| NoSecondRound.

Inductive Event : Type :=
| CallMolFromSmiles (smi : string)
| CallMolToSmiles (mol : string)
| WriteScript (path : string) (smi : string)
| RunScript (path : string)
| CheckOutput
| ReadOutput
| RemoveFile (path : string)
| Sleep (seconds : nat)
| ClearClipboard
| Log (m : LogMsg)
| SaveIntermediate (batch_count : nat) (t : Table)
| SaveFinal (empty_suffix : bool) (t : Table).

Record World : Type := {
  clock : nat;
  files : list string;
  invalid_smiles_indices : list nat;
  trace : list Event
}.

Definition initial_world : World :=
  {| clock := 0; files := []; invalid_smiles_indices := []; trace := [] |}.

Definition tick (w : World) : World :=
  {| clock := S (clock w); files := files w;
     invalid_smiles_indices := invalid_smiles_indices w; trace := trace w |}.

(** The trace holds the most recent event first. *)
Definition emit (e : Event) (w : World) : World :=
  {| clock := clock w; files := files w;
     invalid_smiles_indices := invalid_smiles_indices w; trace := e :: trace w |}.

Definition set_files (fs : list string) (w : World) : World :=
  {| clock := clock w; files := fs;
     invalid_smiles_indices := invalid_smiles_indices w; trace := trace w |}.

Definition mark_invalid (original_index : nat) (w : World) : World :=
  {| clock := clock w; files := files w;
     invalid_smiles_indices := invalid_smiles_indices w ++ [original_index];
     trace := trace w |}.

Definition sleep (seconds : nat) (w : World) : World := emit (Sleep seconds) w.
Definition log (m : LogMsg) (w : World) : World := emit (Log m) w.

(** The number of events of a trace that satisfy [p]. *)
Fixpoint count (p : Event → bool) (tr : list Event) : nat :=
  match tr with
  | [] => 0
  | e :: tr' => (if p e then 1 else 0) + count p tr'
  end.

(** The events emitted between world [w] and a later world [w']. *)
Definition new_events (w w' : World) : list Event :=
  take (length (trace w') - length (trace w)) (trace w').


(** ** RDKit and script helpers *)

Section Pipeline.

Context (env : Env).

(** [canonicalize_smiles]: any failure, raised or not, yields [None]. *)
Definition canonicalize_smiles (smi : string) (w : World) : option string * World :=
  let w1 := tick (emit (CallMolFromSmiles smi) w) in
  match MolFromSmiles env (clock w) smi with
  | MolNone => (None, w1)
  | MolRaises => (None, w1)
  | MolOk mol =>
      (MolToSmiles env (clock w1) mol, tick (emit (CallMolToSmiles mol) w1))
  end.

Definition add_file (path : string) (fs : list string) : list string :=
  path :: filter (λ p, p ≠ path) fs.

Definition remove_file (path : string) (fs : list string) : list string :=
  filter (λ p, p ≠ path) fs.

(** Normal completion of a block, or an exception on its way to the
    nearest handler. *)
Inductive Flow : Type := Normal | Exception.

(** [create_batch_file]: the file is opened for writing (truncated or
    created), then three lines are written. *)
Definition create_batch_file (smi path : string) (w : World) : Flow * World :=
  match open_write env (clock w) path with
  | OpenFails => (Exception, tick w)
  | WriteFails => (Exception, set_files (add_file path (files w)) (tick w))
  | Created =>
      (Normal, emit (WriteScript path smi) (set_files (add_file path (files w)) (tick w)))
  end.

(** [f'temp_hspip_{original_index}.bat'] in the working directory *)
Definition batch_path (original_index : nat) : string :=
  "temp_hspip_" +:+ pretty original_index +:+ ".bat".

(** ** Assembly and checkpoints *)

(** [for df, original_index in all_hsp_full:
       ordered_results[original_index] = df] *)
Fixpoint place_results (all_hsp_full : list (Row * nat))
    (ordered_results : list (option Row)) : Result (list (option Row)) :=
  match all_hsp_full with
  | [] => Ok ordered_results
  | (df, original_index) :: rest =>
      if decide (original_index < length ordered_results)
      then place_results rest (<[original_index := Some df]> ordered_results)
      else Err IndexError
  end.

(** The row joined to [smi] at position [i]: the stored frame, or the
    all-NaN frame. *)
Definition joined_row (ordered_results : list (option Row)) (i : nat) (smi : string)
    : string * Row :=
  match ordered_results !! i with
  | Some (Some df) => (smi, df)
  | _ => (smi, empty_df)
  end.

(** Lines 89-113, and again lines 305-329. *)
Definition assemble (all_hsp_full : list (Row * nat)) (original_smiles : list string)
    : Result Table :=
  match place_results all_hsp_full (replicate (length original_smiles) None) with
  | Err e => Err e
  | Ok ordered_results => Ok (imap (joined_row ordered_results) original_smiles)
  end.

(** Lines 339-350: the table built when there is no result at all. *)
Definition all_missing_table (original_smiles : list string) : Table :=
  map (λ smi, (smi, empty_df)) original_smiles.

Definition save_intermediate_results (all_hsp_full : list (Row * nat))
    (original_smiles : list string) (batch_count : nat) (w : World) : Outcome World unit :=
  match assemble all_hsp_full original_smiles with
  | Err e => Raised e w
  | Ok amHSP => Done tt (emit (SaveIntermediate batch_count amHSP) w)
  end.

(** ** The frame of [process_smiles_batch] *)

Record Frame : Type := {
  all_hsp_full : list (Row * nat);
  failed_output_smiles : list WorkItem;
  batch_count : nat;
  batch_file_path : option string;
  success : bool;
  world : World
}.

Definition on_world (f : World → World) (fr : Frame) : Frame :=
  {| all_hsp_full := all_hsp_full fr; failed_output_smiles := failed_output_smiles fr;
     batch_count := batch_count fr; batch_file_path := batch_file_path fr;
     success := success fr; world := f (world fr) |}.

Definition set_world (w : World) (fr : Frame) : Frame := on_world (λ _, w) fr.

Definition set_success (b : bool) (fr : Frame) : Frame :=
  {| all_hsp_full := all_hsp_full fr; failed_output_smiles := failed_output_smiles fr;
     batch_count := batch_count fr; batch_file_path := batch_file_path fr;
     success := b; world := world fr |}.

Definition set_batch_file_path (path : string) (fr : Frame) : Frame :=
  {| all_hsp_full := all_hsp_full fr; failed_output_smiles := failed_output_smiles fr;
     batch_count := batch_count fr; batch_file_path := Some path;
     success := success fr; world := world fr |}.

Definition append_result (r : Row * nat) (fr : Frame) : Frame :=
  {| all_hsp_full := all_hsp_full fr ++ [r]; failed_output_smiles := failed_output_smiles fr;
     batch_count := batch_count fr; batch_file_path := batch_file_path fr;
     success := success fr; world := world fr |}.

Definition append_failed (item : WorkItem) (fr : Frame) : Frame :=
  {| all_hsp_full := all_hsp_full fr; failed_output_smiles := failed_output_smiles fr ++ [item];
     batch_count := batch_count fr; batch_file_path := batch_file_path fr;
     success := success fr; world := world fr |}.

Definition next_batch (fr : Frame) : Frame :=
  {| all_hsp_full := all_hsp_full fr; failed_output_smiles := failed_output_smiles fr;
     batch_count := S (batch_count fr); batch_file_path := batch_file_path fr;
     success := success fr; world := world fr |}.

Definition new_frame (w : World) : Frame :=
  {| all_hsp_full := []; failed_output_smiles := []; batch_count := 0;
     batch_file_path := None; success := false; world := w |}.

(** ** The orchestrator *)

Context (cfg : Config) (round_desc : Round) (original_smiles : list string).

(** [if round_desc == "initial": failed_output_smiles.append(...)
     else: invalid_smiles_indices.append(original_index)] *)
Definition record_failure (item : WorkItem) (fr : Frame) : Frame :=
  match round_desc with
  | initial => append_failed item fr
  | retry => on_world (mark_invalid item.2) fr
  end.

(** Lines 209-231: the read loop. [Exception] is an error escaping to the
    handler of the enclosing attempt. *)
Fixpoint read_output_loop (n : nat) (original_index : nat) (fr : Frame) : Flow * Frame :=
  match n with
  | 0 => (Normal, fr)
  | S n' =>
      let w := world fr in
      let w1 := tick (emit CheckOutput w) in
      match output_check env (clock w) with
      | CheckRaises => (Exception, set_world w1 fr)
      | OutputMissing =>
          read_output_loop n' original_index
            (set_world (sleep (retry_delay cfg) (log (OutputMissingOrEmpty original_index) w1)) fr)
      | OutputReady =>
          let w2 := tick (emit ReadOutput w1) in
          match read_first_row env (clock w1) with
          | Some hsp_df =>
              (Normal,
               on_world (log (SuccessfullyProcessed original_index))
                 (set_success true (append_result (hsp_df, original_index) (set_world w2 fr))))
          | None =>
              read_output_loop n' original_index
                (set_world (sleep (retry_delay cfg) (log (ErrorReadingOutput original_index) w2)) fr)
          end
      end
  end.

(** Lines 192-241: the body of [try]. Every normal completion ends in
    [break]. *)
Definition try_body (item : WorkItem) (fr : Frame) : Flow * Frame :=
  let '(smi, original_index) := item in
  let '(canon_smi, w1) := canonicalize_smiles smi (world fr) in
  match canon_smi with
  | None =>
      (Normal,
       set_world (mark_invalid original_index (log (FailedToCanonicalize original_index) w1)) fr)
  | Some canon =>
      let path := batch_path original_index in
      let fr1 := set_batch_file_path path fr in
      match create_batch_file canon path w1 with
      | (Exception, w2) => (Exception, set_world w2 fr1)
      | (Normal, w2) =>
          let w3 := tick (emit (RunScript path) w2) in
          if subprocess_run env (clock w2) path then
            match read_output_loop (max_output_retries cfg) original_index (set_world w3 fr1) with
            | (Exception, fr2) => (Exception, fr2)
            | (Normal, fr2) =>
                if success fr2 then (Normal, fr2)
                else (Normal,
                      record_failure item
                        (on_world (log (MaxOutputRetriesReached original_index)) fr2))
            end
          else (Exception, set_world w3 fr1)
      end
  end.

(** Lines 245-248: [finally]. Reading [batch_file_path] before any
    attempt of this call has assigned it raises. *)
Definition finally_clause (fr : Frame) : Outcome Frame unit :=
  match batch_file_path fr with
  | None => Raised (UnboundLocalError "batch_file_path") fr
  | Some path =>
      if bool_decide (path ∈ files (world fr))
      then Done tt (on_world (λ w, emit (RemoveFile path) (set_files (remove_file path (files w)) w)) fr)
      else Done tt fr
  end.

(** Lines 242-244: the [except Exception] handler. *)
Definition except_handler (original_index : nat) (fr : Frame) : Frame :=
  on_world (λ w, sleep (retry_delay cfg) (log (ErrorProcessing original_index) w)) fr.

(** One pass through [try] / [except] / [finally]. [Normal] leaves the
    retry loop through [break]; [Exception] means the handler ran and the
    loop goes on. An exception raised by [finally] itself propagates. *)
Definition attempt (item : WorkItem) (fr : Frame) : Outcome Frame Flow :=
  match try_body item fr with
  | (Normal, fr1) => and_then (finally_clause fr1) (λ _ fr2, Done Normal fr2)
  | (Exception, fr1) =>
      and_then (finally_clause (except_handler item.2 fr1)) (λ _ fr2, Done Exception fr2)
  end.

(** Lines 190-248: [for retry in range(max_retries)]. *)
Fixpoint retry_loop (n : nat) (item : WorkItem) (fr : Frame) : Outcome Frame unit :=
  match n with
  | 0 => Done tt fr
  | S n' =>
      and_then (attempt item fr)
        (λ fl fr1,
           match fl with
           | Normal => Done tt fr1
           | Exception => retry_loop n' item fr1
           end)
  end.

(** Lines 187-262: one item of a batch. *)
Definition process_item (item : WorkItem) (fr : Frame) : Outcome Frame unit :=
  and_then (retry_loop (max_retries cfg) item (set_success false fr))
    (λ _ fr1,
       let fr2 :=
         if success fr1 then fr1
         else record_failure item (on_world (log (FailedToProcess item.2)) fr1) in
       Done tt (on_world (λ w, sleep (clipboard_delay cfg) (emit ClearClipboard w)) fr2)).

Fixpoint process_items (batch : list WorkItem) (fr : Frame) : Outcome Frame unit :=
  match batch with
  | [] => Done tt fr
  | item :: rest => and_then (process_item item fr) (λ _ fr1, process_items rest fr1)
  end.

Definition checkpoint (fr : Frame) : Outcome Frame unit :=
  match save_intermediate_results (all_hsp_full fr) original_smiles (batch_count fr) (world fr) with
  | Done _ w => Done tt (set_world w fr)
  | Raised e w => Raised e (set_world w fr)
  end.

(** [range(start, stop, step)] for a positive step. *)
Fixpoint range_from (fuel start stop step : nat) : list nat :=
  match fuel with
  | 0 => []
  | S fuel' =>
      if decide (start < stop) then start :: range_from fuel' (start + step) stop step else []
  end.

(** Lines 181-272: one iteration of the loop over batches. *)
Definition batch_body (smiles_list : list WorkItem) (batch_start : nat) (fr : Frame)
    : Outcome Frame unit :=
  let batch_end := (batch_start + batch_size cfg) `min` length smiles_list in
  let batch := take (batch_end - batch_start) (drop batch_start smiles_list) in
  let fr1 := on_world (log (ProcessingBatch (S (batch_count fr)))) (next_batch fr) in
  and_then (process_items batch fr1) (λ _ fr2,
  and_then (if decide (batch_count fr2 mod 10 = 0) then checkpoint fr2 else Done tt fr2) (λ _ fr3,
  Done tt (if decide (batch_start + batch_size cfg < length smiles_list)
           then on_world (sleep 10) fr3 else fr3))).

Fixpoint batch_loop (smiles_list : list WorkItem) (starts : list nat) (fr : Frame)
    : Outcome Frame unit :=
  match starts with
  | [] => Done tt fr
  | batch_start :: rest =>
      and_then (batch_body smiles_list batch_start fr) (λ _ fr1, batch_loop smiles_list rest fr1)
  end.

(** Lines 176-277. The frame is returned for inspection; the Python
    function returns [None] and its locals die with the call. *)
Definition process_smiles_batch (smiles_list : list WorkItem) (w : World) : Outcome Frame unit :=
  if decide (batch_size cfg = 0) then Raised ValueError (new_frame w)
  else
    and_then
      (batch_loop smiles_list
         (range_from (length smiles_list) 0 (length smiles_list) (batch_size cfg)) (new_frame w))
      (λ _ fr, if decide (batch_count fr mod 10 ≠ 0) then checkpoint fr else Done tt fr).

End Pipeline.

(** ** The module top level *)

Definition sentinel : string := "CAS number not found".

(** [enumerate(l)] *)
Definition enumerate {A} (l : list A) : list (nat * A) := imap (λ i x, (i, x)) l.

(** Lines 144-146. *)
Definition valid_smiles_indices_of (all_smiles : list string) : list nat :=
  (filter (λ p, p.2 ≠ sentinel) (enumerate all_smiles)).*1.


Definition without_sentinel (all_smiles : list string) : list string :=
  filter (λ smi, smi ≠ sentinel) all_smiles.

(** Lines 280-284. *)
Definition default_config : Config :=
  {| batch_size := 100; max_retries := 3; max_output_retries := 3;
     retry_delay := 2; clipboard_delay := 2 |}.

(** The names [failed_output_smiles] and [all_hsp_full] as the module
    namespace holds them. [process_smiles_batch] assigns both inside its
    body without a [global] statement, so they are locals of each call, and
    no statement at module level binds either name. *)
Record Globals : Type := {
  g_failed_output_smiles : option (list WorkItem);
  g_all_hsp_full : option (list (Row * nat))
}.

Definition module_globals : Globals :=
  {| g_failed_output_smiles := None; g_all_hsp_full := None |}.

(** Reading a module-level name. *)
Definition load_name {A} (name : string) (binding : option A) (w : World) : Outcome World A :=
  match binding with
  | Some v => Done v w
  | None => Raised (NameError name) w
  end.

Section Main.

Context (env : Env).

(** Lines 153-164. *)
Fixpoint validate_loop (valid_smiles_indices : list nat) (items : list (nat * string))
    (valid_smiles : list WorkItem) (w : World) : Outcome World (list WorkItem) :=
  match items with
  | [] => Done valid_smiles w
  | (i, smi) :: rest =>
      let w1 := tick (emit (CallMolFromSmiles smi) w) in
      match valid_smiles_indices !! i with
      | None => Raised IndexError w1
      | Some original_index =>
          match MolFromSmiles env (clock w) smi with
          | MolNone =>
              validate_loop valid_smiles_indices rest valid_smiles
                (mark_invalid original_index (log (InvalidSmiles original_index) w1))
          | MolOk _ =>
              validate_loop valid_smiles_indices rest (valid_smiles ++ [(smi, original_index)])
                (log (ValidSmiles original_index) w1)
          | MolRaises =>
              validate_loop valid_smiles_indices rest valid_smiles
                (mark_invalid original_index (log (ErrorValidating original_index) w1))
          end
      end
  end.

Definition validate (all_smiles : list string) (w : World) : Outcome World (list WorkItem) :=
  validate_loop (valid_smiles_indices_of all_smiles) (enumerate (without_sentinel all_smiles)) [] w.

(** A call of [process_smiles_batch] from module level: only the world
    survives the call. *)
Definition call_process_smiles_batch (round_desc : Round) (original_smiles : list string)
    (smiles_list : list WorkItem) (w : World) : Outcome World unit :=
  match process_smiles_batch env default_config round_desc original_smiles smiles_list w with
  | Done _ fr => Done tt (world fr)
  | Raised e fr => Raised e (world fr)
  end.

(** Lines 287-292. *)
Definition second_round (original_smiles : list string) (w : World) : Outcome World unit :=
  and_then (load_name "failed_output_smiles" (g_failed_output_smiles module_globals) w)
    (λ failed w1,
       match failed with
       | [] => Done tt (log NoSecondRound w1)
       | _ :: _ =>
           call_process_smiles_batch retry original_smiles failed
             (log (StartingSecondRound (length failed)) w1)
       end).

(** Lines 303-356. *)
Definition final_table (all_hsp_full : list (Row * nat)) (original_smiles : list string)
    : Result (bool * Table) :=
  match all_hsp_full with
  | _ :: _ =>
      match assemble all_hsp_full original_smiles with
      | Ok amHSP => Ok (false, amHSP)
      | Err e => Err e
      end
  | [] => Ok (true, all_missing_table original_smiles)
  end.

Definition save_final (original_smiles : list string) (w : World) : Outcome World unit :=
  and_then (load_name "all_hsp_full" (g_all_hsp_full module_globals) w)
    (λ results w1,
       match final_table results original_smiles with
       | Ok (empty_suffix, amHSP) => Done tt (emit (SaveFinal empty_suffix amHSP) w1)
       | Err e => Raised e w1
       end).

(** Lines 142-356, from the loaded list of identifiers on. *)
Definition main (all_smiles : list string) (w : World) : Outcome World unit :=
  let original_smiles := all_smiles in
  and_then (validate all_smiles w) (λ valid_smiles w1,
  and_then (call_process_smiles_batch initial original_smiles valid_smiles w1) (λ _ w2,
  and_then (second_round original_smiles w2) (λ _ w3,
  save_final original_smiles w3))).

End Main.

(** ** Observations on traces *)

Definition final_state {S A} (o : Outcome S A) : S :=
  match o with
  | Done _ s => s
  | Raised _ s => s
  end.

Definition is_final_save (e : Event) : bool :=
  match e with SaveFinal _ _ => true | _ => false end.

Definition is_save (e : Event) : bool :=
  match e with SaveFinal _ _ | SaveIntermediate _ _ => true | _ => false end.

(** An attempt starts by canonicalizing: one [MolFromSmiles] call each. *)
Definition is_attempt (e : Event) : bool :=
  match e with CallMolFromSmiles _ => true | _ => false end.

Definition is_invocation (e : Event) : bool :=
  match e with RunScript _ => true | _ => false end.

Definition is_check (e : Event) : bool :=
  match e with CheckOutput => true | _ => false end.

(** Entry into the [except Exception] handler of an attempt. *)
Definition is_handler_entry (e : Event) : bool :=
  match e with Log (ErrorProcessing _) => true | _ => false end.

Definition is_read_exhaustion (e : Event) : bool :=
  match e with Log (MaxOutputRetriesReached _) => true | _ => false end.

Definition is_read_success (e : Event) : bool :=
  match e with Log (SuccessfullyProcessed _) => true | _ => false end.

Definition is_canon_failure (e : Event) : bool :=
  match e with Log (FailedToCanonicalize _) => true | _ => false end.

(** A read attempt that found no file, an empty file, or could not parse. *)
Definition is_failed_read (e : Event) : bool :=
  match e with
  | Log (OutputMissingOrEmpty _) | Log (ErrorReadingOutput _) => true
  | _ => false
  end.

Definition is_sleep (e : Event) : bool :=
  match e with Sleep _ => true | _ => false end.

Definition is_sleep_of (seconds : nat) (e : Event) : bool :=
  match e with Sleep n => Nat.eqb n seconds | _ => false end.

(** The batch counts at which a checkpoint was written, oldest first. *)
Definition checkpoints_of (tr : list Event) : list nat :=
  reverse (omap (λ e, match e with SaveIntermediate n _ => Some n | _ => None end) tr).

Definition checkpoints (w : World) : list nat := checkpoints_of (trace w).

(** Events the read loop can emit. *)
Definition is_read_event (e : Event) : bool :=
  match e with
  | CheckOutput | ReadOutput | Sleep _
  | Log (OutputMissingOrEmpty _) | Log (ErrorReadingOutput _)
  | Log (SuccessfullyProcessed _) => true
  | _ => false
  end.

(** Events below the level of checkpoints and final output. *)
Definition is_item_event (e : Event) : bool := negb (is_save e).

(** A saved table whose number of rows differs from [n]. *)
Definition is_short_table (n : nat) (e : Event) : bool :=
  match e with
  | SaveIntermediate _ t | SaveFinal _ t => negb (length t =? n)
  | _ => false
  end.

(** Counts of the events emitted between two frames: attempts [a],
    invocations [i], output checks [k], handler entries [h], successful
    reads [s], read exhaustions [x], canonicalization failures [c] and
    failed reads [f]; every sleep follows a handler entry or a failed
    read and lasts [retry_delay]. *)
Definition tally (cfg : Config) (fr fr' : Frame) (a i k h s x c f : nat) : Prop :=
  let N p g := count p (trace (world g)) in
  N is_attempt fr' = N is_attempt fr + a
  ∧ N is_invocation fr' = N is_invocation fr + i
  ∧ N is_check fr' = N is_check fr + k
  ∧ N is_handler_entry fr' = N is_handler_entry fr + h
  ∧ N is_read_success fr' = N is_read_success fr + s
  ∧ N is_read_exhaustion fr' = N is_read_exhaustion fr + x
  ∧ N is_canon_failure fr' = N is_canon_failure fr + c
  ∧ N is_failed_read fr' = N is_failed_read fr + f
  ∧ N is_sleep fr' = N is_sleep fr + h + f
  ∧ N (is_sleep_of (retry_delay cfg)) fr' = N (is_sleep_of (retry_delay cfg)) fr + h + f.

(** How a failure is recorded, by round. *)
Definition recorded (round_desc : Round) (item : WorkItem) (fr fr' : Frame) : Prop :=
  match round_desc with
  | initial =>
      failed_output_smiles fr' = failed_output_smiles fr ++ [item]
      ∧ invalid_smiles_indices (world fr') = invalid_smiles_indices (world fr)
  | retry =>
      failed_output_smiles fr' = failed_output_smiles fr
      ∧ invalid_smiles_indices (world fr') = invalid_smiles_indices (world fr) ++ [item.2]
  end.

Definition unrecorded (fr fr' : Frame) : Prop :=
  failed_output_smiles fr' = failed_output_smiles fr
  ∧ invalid_smiles_indices (world fr') = invalid_smiles_indices (world fr).

(** The two failure lists after [x] read exhaustions and [c]
    canonicalization failures of [item]. *)
Definition ledger (round_desc : Round) (item : WorkItem) (fr fr' : Frame) (x c : nat) : Prop :=
  match round_desc with
  | initial =>
      failed_output_smiles fr' = failed_output_smiles fr ++ replicate x item
      ∧ invalid_smiles_indices (world fr')
        = invalid_smiles_indices (world fr) ++ replicate c item.2
  | retry =>
      failed_output_smiles fr' = failed_output_smiles fr
      ∧ invalid_smiles_indices (world fr')
        = invalid_smiles_indices (world fr) ++ replicate (x + c) item.2
  end.

(** Event predicates that no step of a round can make true: they hold of
    no event below the level of saves, and of no checkpoint whose table
    has one row per original identifier. *)
Definition quiet (original_smiles : list string) (p : Event → bool) : Prop :=
  (∀ e, is_item_event e = true → p e = false)
  ∧ (∀ n t, length t = length original_smiles → p (SaveIntermediate n t) = false).

(** ** The PubChem lookup ([get_smiles_InChI_IUPAC_props.py]) *)

Module PubChem.

#[local] Unset Elimination Schemes.

(** A decoded JSON document, which is also the shape of every Python
    value the script handles. Object members keep their order. *)
Inductive Json : Type :=
| JNull
| JBool (b : bool)
| JNum (n : Z)
| JStr (s : string)
| JArr (items : list Json)
| JObj (members : list (string * Json)).

#[local] Set Elimination Schemes.

(** Exceptions by the [except] clause that catches them. *)
Inductive PyError : Type :=
| RequestException (detail : string)
| JSONDecodeError (detail : string)
| TypeError
| KeyError (key : string)
| IndexError
| AttributeError.

Definition Raises (A : Type) : Type := PyError + A.

Definition ret {A} (a : A) : Raises A := inr a.
Definition raise {A} (e : PyError) : Raises A := inl e.

#[global] Instance Raises_bind : MBind Raises :=
  λ A B k m, match m with inl e => inl e | inr a => k a end.

(** What a request yields: a connection failure, a body that is not
    JSON, or a decoded document. [response.json()] may raise either
    class, depending on the version of [requests]. *)
Inductive Response : Type :=
| ConnectionFails (detail : string)
| BodyNotJson (e : PyError)
| Body (data : Json).

(** The service answers the [n]-th request of a call; [str_json] and
    [str_exc] are Python's [str] on values and exceptions. *)
Record Env : Type := {
  requests_get : nat → string → Response;
  str_json : Json → string;
  str_exc : PyError → string
}.

(** [str(v)]: a string prints as itself. *)
Definition py_str (env : Env) (v : Json) : string :=
  match v with
  | JStr s => s
  | _ => str_json env v
  end.

Fixpoint lookup_member (key : string) (members : list (string * Json)) : option Json :=
  match members with
  | [] => None
  | (k, v) :: rest => if decide (k = key) then Some v else lookup_member key rest
  end.

Definition is_substring (s1 s2 : string) : bool :=
  match String.index 0 s1 s2 with
  | Some _ => true
  | None => false
  end.

Definition is_str (key : string) (v : Json) : bool :=
  match v with
  | JStr s => bool_decide (s = key)
  | _ => false
  end.

(** [key in v] for a string [key] *)
Definition py_in (key : string) (v : Json) : Raises bool :=
  match v with
  | JObj members => ret (bool_decide (is_Some (lookup_member key members)))
  | JArr items => ret (existsb (is_str key) items)
  | JStr s => ret (is_substring key s)
  | _ => raise TypeError
  end.

(** [v[key]] for a string [key] *)
Definition py_getitem (v : Json) (key : string) : Raises Json :=
  match v with
  | JObj members =>
      match lookup_member key members with
      | Some x => ret x
      | None => raise (KeyError key)
      end
  | _ => raise TypeError
  end.

(** [v[0]] *)
Definition py_first (v : Json) : Raises Json :=
  match v with
  | JArr (x :: _) => ret x
  | JArr [] => raise IndexError
  | JStr (String c _) => ret (JStr (String c EmptyString))
  | JStr EmptyString => raise IndexError
  | JObj _ => raise (KeyError "0")
  | _ => raise TypeError
  end.

(** [v.get(key, default)] *)
Definition py_get (v : Json) (key : string) (default : Json) : Raises Json :=
  match v with
  | JObj members => ret (from_option id default (lookup_member key members))
  | _ => raise AttributeError
  end.

Fixpoint chars (s : string) : list Json :=
  match s with
  | EmptyString => []
  | String c s' => JStr (String c EmptyString) :: chars s'
  end.

(** The items a [for] loop over [v] visits. *)
Definition py_iter (v : Json) : Raises (list Json) :=
  match v with
  | JArr items => ret items
  | JObj members => ret (JStr <$> members.*1)
  | JStr s => ret (chars s)
  | _ => raise TypeError
  end.

(** Truth value in a condition. *)
Definition truthy (v : Json) : bool :=
  match v with
  | JNull => false
  | JBool b => b
  | JNum n => negb (Z.eqb n 0)
  | JStr s => negb (bool_decide (s = ""))
  | JArr items => negb (bool_decide (items = []))
  | JObj members => negb (bool_decide (members = []))
  end.

Fixpoint set_member (key : string) (value : Json) (members : list (string * Json))
    : list (string * Json) :=
  match members with
  | [] => [(key, value)]
  | (k, v) :: rest =>
      if decide (k = key) then (k, value) :: rest else (k, v) :: set_member key value rest
  end.

(** [properties[name] = value]. A dict takes any hashable key; keys that
    are not strings are kept under their printed form. A list takes an
    integer index in range. *)
Definition py_setitem (env : Env) (properties name value : Json) : Raises Json :=
  match properties with
  | JObj members =>
      match name with
      | JArr _ | JObj _ => raise TypeError
      | _ => ret (JObj (set_member (py_str env name) value members))
      end
  | JArr items =>
      match name with
      | JNum n =>
          if decide (0 ≤ n < Z.of_nat (length items))%Z
          then ret (JArr (<[Z.to_nat n := value]> items))
          else if decide (- Z.of_nat (length items) ≤ n < 0)%Z
          then ret (JArr (<[Z.to_nat (Z.of_nat (length items) + n) := value]> items))
          else raise IndexError
      | JBool b =>
          if decide (Nat.b2n b < length items)
          then ret (JArr (<[Nat.b2n b := value]> items))
          else raise IndexError
      | _ => raise TypeError
      end
  | _ => raise TypeError
  end.

(** [requests.get(url)] then [response.json()], as request number [n]. *)
Definition fetch_json (env : Env) (n : nat) (url : string) : Raises Json :=
  match requests_get env n url with
  | ConnectionFails detail => raise (RequestException detail)
  | BodyNotJson e => raise e
  | Body data => ret data
  end.

Definition base_url : string := "https://pubchem.ncbi.nlm.nih.gov/rest/pug".

Definition property_names : string :=
  "MolecularFormula,MolecularWeight,CanonicalSMILES,IsomericSMILES,InChI,InChIKey,IUPACName,XLogP,ExactMass,MonoisotopicMass,TPSA,Complexity,Charge,HBondDonorCount,HBondAcceptorCount,RotatableBondCount,HeavyAtomCount,IsotopeAtomCount,AtomStereoCount,DefinedAtomStereoCount,UndefinedAtomStereoCount,BondStereoCount,DefinedBondStereoCount,UndefinedBondStereoCount,CovalentUnitCount,Volume3D,XStericQuadrupole3D,YStericQuadrupole3D,ZStericQuadrupole3D,FeatureCount3D,FeatureAcceptorCount3D,FeatureDonorCount3D,FeatureAnionCount3D,FeatureCationCount3D,FeatureRingCount3D,FeatureHydrophobeCount3D,ConformerModelRMSD3D,EffectiveRotorCount3D,ConformerCount3D".

Definition cid_url (cas_number : string) : string :=
  base_url +:+ "/compound/name/" +:+ cas_number +:+ "/cids/JSON".

Definition properties_url (cid : string) : string :=
  base_url +:+ "/compound/cid/" +:+ cid +:+ "/property/" +:+ property_names +:+ "/JSON".

Definition section_url (cid section : string) : string :=
  base_url +:+ "/compound/cid/" +:+ cid +:+ "/JSON?heading=" +:+ section.

Definition sections : list string :=
  ["Physical Properties"; "Chemical and Physical Properties"].

Definition error_dict (message : string) : Json := JObj [("Error", JStr message)].

(** A [for] loop whose body updates [properties] and may raise. *)
Fixpoint for_each {A} (items : list A) (body : A → Json → Raises Json) (properties : Json)
    : Raises Json :=
  match items with
  | [] => ret properties
  | x :: rest => properties ← body x properties; for_each rest body properties
  end.

(** Lines 71-74. *)
Definition scan_information (env : Env) (info properties : Json) : Raises Json :=
  name ← py_get info "Name" (JStr "");
  v ← py_get info "Value" (JObj []);
  markup ← py_get v "StringWithMarkup" (JArr [JObj []]);
  first ← py_first markup;
  value ← py_get first "String" (JStr "");
  if truthy name && truthy value then py_setitem env properties name value
  else ret properties.

(** Lines 69-74. *)
Definition scan_subsection (env : Env) (subsection properties : Json) : Raises Json :=
  information ← py_get subsection "Information" (JArr []);
  infos ← py_iter information;
  for_each infos (scan_information env) properties.

(** Lines 67-74. *)
Definition scan_section (env : Env) (section : string) (s properties : Json) : Raises Json :=
  heading ← py_getitem s "TOCHeading";
  if is_str section heading then
    subsections ← py_get s "Section" (JArr []);
    subs ← py_iter subsections;
    for_each subs (scan_subsection env) properties
  else ret properties.

(** Lines 61-74: one of the two report sections, fetched as request
    number [n]. *)
Definition augment (env : Env) (cid : string) (indexed : nat * string) (properties : Json)
    : Raises Json :=
  let '(n, section) := indexed in
  section_data ← fetch_json env n (section_url cid section);
  has_record ← py_in "Record" section_data;
  if (has_record : bool) then
    record ← py_getitem section_data "Record";
    has_section ← py_in "Section" record;
    if (has_section : bool) then
      listed ← py_getitem record "Section";
      items ← py_iter listed;
      for_each items (scan_section env section) properties
    else ret properties
  else ret properties.

(** [a not in x or b not in x[a]], with Python's short circuit. *)
Definition lacks (a b : string) (data : Json) : Raises bool :=
  has_a ← py_in a data;
  if (has_a : bool) then
    inner ← py_getitem data a;
    has_b ← py_in b inner;
    ret (negb has_b)
  else ret true.

(** [data[a][b][0]] *)
Definition first_of (a b : string) (data : Json) : Raises Json :=
  inner ← py_getitem data a;
  listed ← py_getitem inner b;
  py_first listed.

(** Lines 39-76: the body of [try]. *)
Definition try_body (env : Env) (cas_number : string) : Raises Json :=
  data ← fetch_json env 0 (cid_url cas_number);
  not_found ← lacks "IdentifierList" "CID" data;
  if (not_found : bool) then
    ret (error_dict ("CAS number " +:+ cas_number +:+ " not found in PubChem"))
  else
    cid ← first_of "IdentifierList" "CID" data;
    data ← fetch_json env 1 (properties_url (py_str env cid));
    no_table ← lacks "PropertyTable" "Properties" data;
    if (no_table : bool) then
      ret (error_dict ("Failed to retrieve properties for CID " +:+ py_str env cid))
    else
      properties ← first_of "PropertyTable" "Properties" data;
      for_each (zip [2; 3] sections) (augment env (py_str env cid)) properties.

(** Lines 77-82: the three [except] clauses, in order. *)
Definition except_clauses (env : Env) (e : PyError) : Json :=
  match e with
  | RequestException _ => error_dict ("Network error: " +:+ str_exc env e)
  | JSONDecodeError _ => error_dict "Failed to parse JSON response"
  | _ => error_dict ("Unexpected error: " +:+ str_exc env e)
  end.

Definition get_compound_info (env : Env) (cas_number : string) : Json :=
  match try_body env cas_number with
  | inr properties => properties
  | inl e => except_clauses env e
  end.

Definition format_property (env : Env) (prop : string * Json) : string :=
  prop.1 +:+ ": " +:+ py_str env prop.2.

(** What the command line prints, and the exception that ends it if one
    escapes. [argv] includes the script name. *)
Definition cli (env : Env) (argv : list string) : list string * option PyError :=
  match argv with
  | _ :: cas_number :: _ =>
      let properties := get_compound_info env cas_number in
      match py_in "Error" properties with
      | inl e => ([], Some e)
      | inr false =>
          match properties with
          | JObj members => (format_property env <$> members, None)
          | _ => ([], Some AttributeError)
          end
      | inr true =>
          match py_getitem properties "Error" with
          | inr message => (["Error: " +:+ py_str env message], None)
          | inl e => ([], Some e)
          end
      end
  | _ => (["Please provide a CAS number as an argument."], None)
  end.


(** Formaldehyde, with no report sections. *)
Definition env_formaldehyde : Env :=
  {| requests_get := λ n _,
       match n with
       | 0 => Body (JObj [("IdentifierList", JObj [("CID", JArr [JNum 712])])])
       | 1 => Body (JObj [("PropertyTable",
                JObj [("Properties",
                  JArr [JObj [("CID", JNum 712); ("MolecularFormula", JStr "CH2O")]])])])
       | _ => Body (JObj [])
       end;
     str_json := λ v, match v with JNum n => pretty n | _ => "?" end;
     str_exc := λ _, "?" |}.

End PubChem.

(** ** Sample inputs and statement vocabulary *)

(** A full output row, every column set. *)
Definition sample_row : Row := map (λ col, (col, Some "1")) columns.


(** [Out.dat] stays empty until the call clock reaches [t0]. *)
Definition env_output_from (t0 : nat) : Env :=
  {| MolFromSmiles := λ _ smi, MolOk smi;
     MolToSmiles := λ _ mol, Some mol;
     open_write := λ _ _, Created;
     subprocess_run := λ _ _, true;
     output_check := λ t, if decide (t < t0) then OutputMissing else OutputReady;
     read_first_row := λ _, Some sample_row |}.


(** [MolFromSmiles] parses, [MolToSmiles] raises. *)
Definition env_canon_fails : Env :=
  {| MolFromSmiles := λ _ smi, MolOk smi;
     MolToSmiles := λ _ mol, None;
     open_write := λ _ _, Created;
     subprocess_run := λ _ _, true;
     output_check := λ _, OutputReady;
     read_first_row := λ _, Some sample_row |}.


Global Instance LogMsg_eq_dec : EqDecision LogMsg.
Proof. solve_decision. Defined.
Global Instance Event_eq_dec : EqDecision Event.
Proof. solve_decision. Defined.

(** The number of iterations of [range(0, n, size)]. *)
Definition num_batches (n size : nat) : nat := length (range_from n 0 n size).

(** [n] copies of methane, and the work list validation makes of them. *)
Definition many_smiles (n : nat) : list string := replicate n "C".

Definition many_items (n : nat) : list WorkItem := imap (λ i smi, (smi, i)) (many_smiles n).

(** Every call succeeds; the output has a single column. *)
Definition env_quick : Env :=
  {| MolFromSmiles := λ _ smi, MolOk smi;
     MolToSmiles := λ _ mol, Some mol;
     open_write := λ _ _, Created;
     subprocess_run := λ _ _, true;
     output_check := λ _, OutputReady;
     read_first_row := λ _, Some [("D", Some "7")] |}.



(** A call of the structure parser on the string [s]. *)
Definition is_parse_of (s : string) (e : Event) : bool :=
  match e with CallMolFromSmiles smi => bool_decide (smi = s) | _ => false end.

(** The pairs (original index, identifier) that survive the sentinel filter. *)
Definition kept (all_smiles : list string) : list (nat * string) :=
  filter (λ p, p.2 ≠ sentinel) (enumerate all_smiles).


(** ** Counting lemmas *)

Lemma count_app (p : Event → bool) (d1 d2 : list Event) : count p (d1 ++ d2) = count p d1 + count p d2.
Proof. induction d1 as [|e d1 IH]; simpl; [done | rewrite IH; lia]. Qed.

Lemma count_elem_of (p : Event → bool) (e : Event) (d : list Event) :
  e ∈ d → p e = true → 1 ≤ count p d.
Proof.
  induction 1 as [e d | e e' d _ IH]; intros Hp; simpl.
  - rewrite Hp. lia.
  - specialize (IH Hp). lia.
Qed.

Lemma new_events_emitted (w w' : World) (d : list Event) : trace w' = d ++ trace w → new_events w w' = d.
Proof.
  intros H. unfold new_events. rewrite H, length_app.
  replace (length d + length (trace w) - length (trace w)) with (length d) by lia.
  by rewrite take_app_length.
Qed.

Lemma count_new_events (p : Event → bool) (w w' : World) :
  trace w `suffix_of` trace w' →
  count p (new_events w w') + count p (trace w) = count p (trace w').
Proof.
  intros [d Hd]. rewrite (new_events_emitted _ _ _ Hd), Hd, count_app. lia.
Qed.

Lemma checkpoints_of_app d1 d2 :
  checkpoints_of (d1 ++ d2) = checkpoints_of d2 ++ checkpoints_of d1.
Proof. unfold checkpoints_of. by rewrite omap_app, reverse_app. Qed.

Lemma count_suffix (p : Event → bool) (tr tr' : list Event) :
  tr `suffix_of` tr' → count p tr ≤ count p tr'.
Proof. intros [d ->]. rewrite count_app. lia. Qed.

Lemma read_event_item_event e : is_read_event e = true → is_item_event e = true.
Proof. destruct e as [| | | | | | | | |[]| |]; done. Qed.

Lemma remove_file_absent (path : string) (fs : list string) :
  path ∉ fs → remove_file path fs = fs.
Proof.
  unfold remove_file. induction fs as [|p fs IH]; [done|].
  rewrite not_elem_of_cons. intros [Hne Hnot].
  rewrite filter_cons_True by done. by rewrite IH.
Qed.

Lemma remove_add_file (path : string) (fs : list string) :
  remove_file path (add_file path fs) = remove_file path fs.
Proof.
  unfold remove_file, add_file. rewrite filter_cons_False by (intros H; by apply H).
  induction fs as [|p fs IH]; [done|].
  rewrite !filter_cons. destruct (decide (p ≠ path)); [|done].
  rewrite filter_cons_True by done. by rewrite IH.
Qed.

Section ItemLemmas.

Context (env : Env) (cfg : Config) (round_desc : Round).

Abbreviation N p fr := (count p (trace (world fr))).

Lemma read_output_loop_suffix n idx fr :
  trace (world fr) `suffix_of` trace (world (read_output_loop env cfg n idx fr).2).
Proof.
  revert fr. induction n as [|n IH]; intros fr; simpl; [done|].
  destruct (output_check env _); simpl.
  - destruct (read_first_row env _); simpl.
    + do 3 apply suffix_cons_r. done.
    + etrans; [|apply IH]. simpl. do 4 apply suffix_cons_r. done.
  - etrans; [|apply IH]. simpl. do 3 apply suffix_cons_r. done.
  - by apply suffix_cons_r.
Qed.

Lemma read_output_loop_other p n idx fr :
  (∀ e, is_read_event e = true → p e = false) →
  N p (read_output_loop env cfg n idx fr).2 = N p fr.
Proof.
  intros Hp. revert fr. induction n as [|n IH]; intros fr; simpl; [done|].
  destruct (output_check env _); simpl.
  - destruct (read_first_row env _); simpl.
    + rewrite !Hp by done. done.
    + rewrite IH. simpl. rewrite !Hp by done. done.
  - rewrite IH. simpl. rewrite !Hp by done. done.
  - rewrite !Hp by done. done.
Qed.

Lemma read_output_loop_counts n idx fr fl fr' :
  read_output_loop env cfg n idx fr = (fl, fr') →
  N is_check fr' ≤ N is_check fr + n
  ∧ N is_sleep fr' - N is_sleep fr = N is_failed_read fr' - N is_failed_read fr
  ∧ N is_sleep fr ≤ N is_sleep fr'
  ∧ N is_failed_read fr ≤ N is_failed_read fr'
  ∧ N (is_sleep_of (retry_delay cfg)) fr' - N (is_sleep_of (retry_delay cfg)) fr
    = N is_sleep fr' - N is_sleep fr
  ∧ N (is_sleep_of (retry_delay cfg)) fr ≤ N (is_sleep_of (retry_delay cfg)) fr'
  ∧ (success fr = false →
     N is_read_success fr' = N is_read_success fr + (if success fr' then 1 else 0))
  ∧ (fl = Normal → success fr' = false → N is_failed_read fr' = N is_failed_read fr + n)
  ∧ (fl = Exception → success fr' = success fr).
Proof.
  revert fr. induction n as [|n IH]; intros fr; simpl.
  { intros [= <- <-]. repeat split; try lia; try done. destruct (success fr); intros; lia. }
  destruct (output_check env _); simpl.
  - destruct (read_first_row env _); simpl.
    + intros [= <- <-]. simpl. repeat split; try lia; try done.
    + intros H. apply IH in H. simpl in H. rewrite Nat.eqb_refl in H.
      destruct H as (H1&H2&H3&H4&H5&H6&H7&H8&H9).
      repeat split; try lia; try done.
      intros -> Hs. specialize (H8 eq_refl Hs). lia.
  - intros H. apply IH in H. simpl in H. rewrite Nat.eqb_refl in H.
    destruct H as (H1&H2&H3&H4&H5&H6&H7&H8&H9).
    repeat split; try lia; try done.
    intros -> Hs. specialize (H8 eq_refl Hs). lia.
  - intros [= <- <-]. simpl. repeat split; try lia; try done.
    destruct (success fr); intros; lia.
Qed.

Lemma read_suffix' n idx fr fl fr' :
  read_output_loop env cfg n idx fr = (fl, fr') →
  trace (world fr) `suffix_of` trace (world fr').
Proof. intros H. pose proof (read_output_loop_suffix n idx fr) as X. by rewrite H in X. Qed.

Lemma read_other' p n idx fr fl fr' :
  read_output_loop env cfg n idx fr = (fl, fr') →
  (∀ e, is_read_event e = true → p e = false) →
  N p fr' = N p fr.
Proof. intros H Hp. pose proof (read_output_loop_other p n idx fr Hp) as X. by rewrite H in X. Qed.

Lemma read_output_loop_frame n idx fr fl fr' :
  read_output_loop env cfg n idx fr = (fl, fr') →
  failed_output_smiles fr' = failed_output_smiles fr
  ∧ batch_file_path fr' = batch_file_path fr
  ∧ batch_count fr' = batch_count fr
  ∧ files (world fr') = files (world fr)
  ∧ invalid_smiles_indices (world fr') = invalid_smiles_indices (world fr)
  ∧ ∃ rows, all_hsp_full fr' = all_hsp_full fr ++ rows ∧ Forall (λ r, r.2 = idx) rows.
Proof.
  revert fr. induction n as [|n IH]; intros fr; simpl.
  { intros [= <- <-]. repeat split; try done. exists []. by rewrite app_nil_r. }
  destruct (output_check env _); simpl.
  - destruct (read_first_row env _); simpl.
    + intros [= <- <-]. simpl. repeat split; try done.
      eexists [_]. split; [done|]. by repeat constructor.
    + intros H. apply IH in H. simpl in H. done.
  - intros H. apply IH in H. simpl in H. done.
  - intros [= <- <-]. simpl. repeat split; try done. exists []. by rewrite app_nil_r.
Qed.

Lemma try_body_spec item fr fl fr' :
  success fr = false →
  try_body env cfg round_desc item fr = (fl, fr') →
  trace (world fr) `suffix_of` trace (world fr')
  ∧ (∀ p, (∀ e, is_item_event e = true → p e = false) → N p fr' = N p fr)
  ∧ N is_attempt fr' = N is_attempt fr + 1
  ∧ N is_handler_entry fr' = N is_handler_entry fr
  ∧ N is_invocation fr' ≤ N is_invocation fr + 1
  ∧ N is_check fr' + max_output_retries cfg * N is_invocation fr
    ≤ N is_check fr + max_output_retries cfg * N is_invocation fr'
  ∧ N is_sleep fr' + N is_failed_read fr = N is_sleep fr + N is_failed_read fr'
  ∧ N (is_sleep_of (retry_delay cfg)) fr' + N is_sleep fr
    = N (is_sleep_of (retry_delay cfg)) fr + N is_sleep fr'
  ∧ batch_count fr' = batch_count fr
  ∧ (∃ rows, all_hsp_full fr' = all_hsp_full fr ++ rows ∧ Forall (λ r, r.2 = item.2) rows)
  ∧ ((fl = Normal ∧ success fr' = true
      ∧ N is_read_success fr' = S (N is_read_success fr)
      ∧ N is_read_exhaustion fr' = N is_read_exhaustion fr
      ∧ N is_canon_failure fr' = N is_canon_failure fr
      ∧ unrecorded fr fr'
      ∧ batch_file_path fr' = Some (batch_path item.2))
     ∨ (fl = Normal ∧ success fr' = false
        ∧ N is_read_success fr' = N is_read_success fr
        ∧ N is_read_exhaustion fr' = S (N is_read_exhaustion fr)
        ∧ N is_canon_failure fr' = N is_canon_failure fr
        ∧ N is_failed_read fr' = N is_failed_read fr + max_output_retries cfg
        ∧ recorded round_desc item fr fr'
        ∧ batch_file_path fr' = Some (batch_path item.2))
     ∨ (fl = Normal ∧ success fr' = false
        ∧ N is_read_success fr' = N is_read_success fr
        ∧ N is_read_exhaustion fr' = N is_read_exhaustion fr
        ∧ N is_canon_failure fr' = S (N is_canon_failure fr)
        ∧ failed_output_smiles fr' = failed_output_smiles fr
        ∧ invalid_smiles_indices (world fr') = invalid_smiles_indices (world fr) ++ [item.2]
        ∧ batch_file_path fr' = batch_file_path fr)
     ∨ (fl = Exception ∧ success fr' = false
        ∧ N is_read_success fr' = N is_read_success fr
        ∧ N is_read_exhaustion fr' = N is_read_exhaustion fr
        ∧ N is_canon_failure fr' = N is_canon_failure fr
        ∧ unrecorded fr fr'
        ∧ batch_file_path fr' = Some (batch_path item.2)))
  ∧ ((batch_file_path fr' = batch_file_path fr ∧ files (world fr') = files (world fr))
     ∨ (batch_file_path fr' = Some (batch_path item.2)
        ∧ (files (world fr') = files (world fr)
           ∨ files (world fr') = add_file (batch_path item.2) (files (world fr))))).
Proof.
  intros Hs0.
  unfold try_body, canonicalize_smiles, create_batch_file.
  destruct item as [smi idx]; simpl.
  destruct (MolFromSmiles env _ _) as [|mol|]; simpl;
    [| destruct (MolToSmiles env _ _); simpl;
       [ destruct (open_write env _ _); simpl;
         [ destruct (subprocess_run env _ _); simpl | | ] | ] | ].
  2:{ destruct (read_output_loop _ _ _ _ _) as [fl2 fr2] eqn:Hread.
      pose proof (read_suffix' _ _ _ _ _ Hread) as Hsuf.
      pose proof (λ p, read_other' p _ _ _ _ _ Hread) as Hoth.
      pose proof (read_output_loop_counts _ _ _ _ _ Hread) as Hc.
      pose proof (read_output_loop_frame _ _ _ _ _ Hread) as Hf.
      simpl in Hsuf, Hoth, Hc, Hf. clear Hread.
      destruct Hc as (Hc1&Hc2&Hc3&Hc4&Hc5&Hc6&Hc7&Hc8&Hc9).
      destruct Hf as (Hf1&Hf2&Hf3&Hf4&Hf5&Hf6).
      specialize (Hc7 Hs0).
      assert (Ha := Hoth is_attempt ltac:(by intros [| | | | | | | | |[]| |])).
      assert (Hi := Hoth is_invocation ltac:(by intros [| | | | | | | | |[]| |])).
      assert (Hh := Hoth is_handler_entry ltac:(by intros [| | | | | | | | |[]| |])).
      assert (He := Hoth is_read_exhaustion ltac:(by intros [| | | | | | | | |[]| |])).
      assert (Hcf := Hoth is_canon_failure ltac:(by intros [| | | | | | | | |[]| |])).
      simpl in Ha, Hi, Hh, He, Hcf.
      destruct fl2; [destruct (success fr2) eqn:Hs2|]; intros [= <- <-]; simpl.
      - split; [etrans; [|exact Hsuf]; by do 4 apply suffix_cons_r|].
        split; [intros p Hp; rewrite Hoth by (intros e ?; by apply Hp, read_event_item_event);
                simpl; by rewrite !Hp|].
        repeat (split; [first [done | lia | nia] |]).
        split; [left; repeat split; first [done | lia] | right; auto].
      - specialize (Hc8 eq_refl eq_refl).
        unfold recorded, record_failure; destruct round_desc; simpl.
        all: (split; [apply suffix_cons_r; etrans; [|exact Hsuf]; by do 4 apply suffix_cons_r|]).
        all: (split; [intros p Hp;
                rewrite Hoth by (intros e ?; by apply Hp, read_event_item_event);
                simpl; by rewrite !Hp|]).
        all: rewrite ?Hf1, ?Hf5.
        all: repeat (split; [first [done | lia | nia] |]).
        all: (split; [right; left; repeat split; first [done | lia] | right; auto]).
      - specialize (Hc9 eq_refl).
        split; [etrans; [|exact Hsuf]; by do 4 apply suffix_cons_r|].
        split; [intros p Hp; rewrite Hoth by (intros e ?; by apply Hp, read_event_item_event);
                simpl; by rewrite !Hp|].
        rewrite Hc9, Hs0 in Hc7.
        repeat (split; [first [done | lia | nia] |]).
        split; [right; right; right; repeat split; first [done | congruence | lia] | right; auto]. }
  all: intros [= <- <-]; simpl.
  all: (split; [by repeat apply suffix_cons_r|]).
  all: (split; [intros p Hp; by rewrite ?Hp|]).
  all: repeat (split; [first [done | lia | nia | by exists []; rewrite app_nil_r] |]).
  - split; [right; right; left; done | left; done].
  - split; [right; right; right; done | right; auto].
  - split; [right; right; right; done | right; auto].
  - split; [right; right; right; done | right; auto].
  - split; [right; right; left; done | left; done].
  - split; [right; right; left; done | left; done].
Qed.

Lemma finally_clause_spec fr :
  let fr' := final_state (finally_clause fr) in
  trace (world fr) `suffix_of` trace (world fr')
  ∧ (∀ p, (∀ path, p (RemoveFile path) = false) → N p fr' = N p fr)
  ∧ all_hsp_full fr' = all_hsp_full fr
  ∧ failed_output_smiles fr' = failed_output_smiles fr
  ∧ batch_count fr' = batch_count fr
  ∧ batch_file_path fr' = batch_file_path fr
  ∧ success fr' = success fr
  ∧ invalid_smiles_indices (world fr') = invalid_smiles_indices (world fr)
  ∧ match finally_clause fr with
    | Done _ _ =>
        ∃ path, batch_file_path fr = Some path
                ∧ files (world fr') = remove_file path (files (world fr))
    | Raised e _ =>
        e = UnboundLocalError "batch_file_path" ∧ batch_file_path fr = None ∧ fr' = fr
    end.
Proof.
  unfold finally_clause. destruct (batch_file_path fr) as [path|] eqn:Hp; simpl.
  - case_bool_decide as Hin; simpl.
    + repeat split; try done; [by apply suffix_cons_r | intros p H; by rewrite H | eauto].
    + repeat split; try done. exists path. split; [done|].
      by rewrite remove_file_absent.
  - repeat split; done.
Qed.

Lemma attempt_spec item fr :
  success fr = false →
  let o := attempt env cfg round_desc item fr in
  let fr' := final_state o in
  trace (world fr) `suffix_of` trace (world fr')
  ∧ (∀ p, (∀ e, is_item_event e = true → p e = false) → N p fr' = N p fr)
  ∧ batch_count fr' = batch_count fr
  ∧ (∃ rows, all_hsp_full fr' = all_hsp_full fr ++ rows ∧ Forall (λ r, r.2 = item.2) rows)
  ∧ (files (world fr) = [] → files (world fr') = [])
  ∧ (∃ i k h s x c f,
        tally cfg fr fr' 1 i k h s x c f
        ∧ i ≤ 1 ∧ k ≤ max_output_retries cfg * i
        ∧ s = (if success fr' then 1 else 0)
        ∧ ledger round_desc item fr fr' x c
        ∧ (x = 1 → f = max_output_retries cfg)
        ∧ match o with
          | Done Normal _ => h = 0 ∧ s + x + c = 1
          | Done Exception _ => h = 1 ∧ s + x + c = 0
          | Raised e _ =>
              e = UnboundLocalError "batch_file_path" ∧ batch_file_path fr = None
              ∧ h = 0 ∧ c = 1 ∧ s = 0 ∧ x = 0
          end)
  ∧ match o with Done _ _ => is_Some (batch_file_path fr') | Raised _ _ => True end
  ∧ (is_Some (batch_file_path fr) → ∃ fl, o = Done fl fr').
Proof.
  intros Hs0 o fr'. subst o fr'. unfold attempt.
  destruct (try_body env cfg round_desc item fr) as [fl fr1] eqn:Htry.
  destruct (try_body_spec _ _ _ _ Hs0 Htry)
    as (Hsuf & Hoth & Ha & Hh & Hi & Hk & Hsl & Hrd & Hbc & Hrows & Hcase & Hfiles).
  clear Htry.
  assert (Hmono : ∀ p, N p fr ≤ N p fr1) by (intros p; by apply count_suffix).
  assert (Hinv : N is_invocation fr1 = N is_invocation fr
                 ∨ N is_invocation fr1 = S (N is_invocation fr)).
  { pose proof (Hmono is_invocation). lia. }
  assert (Hk' : N is_check fr1 - N is_check fr
                ≤ max_output_retries cfg * (N is_invocation fr1 - N is_invocation fr)).
  { destruct Hinv as [E|E]; rewrite E in *; nia. }
  pose proof (Hmono is_check) as Hm1. pose proof (Hmono is_failed_read) as Hm2.
  pose proof (Hmono is_sleep) as Hm3.
  pose proof (Hmono (is_sleep_of (retry_delay cfg))) as Hm4.
  set (g := match fl with Normal => fr1 | Exception => except_handler cfg item.2 fr1 end).
  pose proof (finally_clause_spec g) as Hfin. simpl in Hfin.
  destruct Hfin as (Fsuf & Foth & F1 & F2 & F3 & F4 & F5 & F6 & Fcase).
  assert (Fa := Foth is_attempt ltac:(done)).
  assert (Fi := Foth is_invocation ltac:(done)).
  assert (Fk := Foth is_check ltac:(done)).
  assert (Fh := Foth is_handler_entry ltac:(done)).
  assert (Fs := Foth is_read_success ltac:(done)).
  assert (Fx := Foth is_read_exhaustion ltac:(done)).
  assert (Fc := Foth is_canon_failure ltac:(done)).
  assert (Ff := Foth is_failed_read ltac:(done)).
  assert (Fsl := Foth is_sleep ltac:(done)).
  assert (Frd := Foth (is_sleep_of (retry_delay cfg)) ltac:(done)).
  assert (Hfiles' : files (world fr) = [] →
            files (world (final_state (finally_clause g))) = []).
  { intros Hnil. destruct (finally_clause g) as [[] fr2|e fr2] eqn:Hg; simpl in *.
    - destruct Fcase as (path & Hp & ->).
      assert (files (world g) = files (world fr1)) as -> by (subst g; by destruct fl).
      assert (batch_file_path g = batch_file_path fr1) as Hbp by (subst g; by destruct fl).
      rewrite Hbp in Hp.
      destruct Hfiles as [[_ ->]|[Hq [->| ->]]]; rewrite ?Hnil; try done.
      rewrite Hq in Hp. injection Hp as <-. by rewrite remove_add_file.
    - destruct Fcase as (_ & Hp & ->).
      assert (files (world g) = files (world fr1)) as -> by (subst g; by destruct fl).
      assert (batch_file_path g = batch_file_path fr1) as Hbp by (subst g; by destruct fl).
      rewrite Hbp in Hp.
      destruct Hfiles as [[_ ->]|[Hq _]]; [done | congruence]. }
  assert (Hbp' : is_Some (batch_file_path fr1) →
            ∃ fr2, finally_clause g = Done tt fr2).
  { intros [path Hp]. unfold finally_clause.
    assert (batch_file_path g = batch_file_path fr1) as -> by (subst g; by destruct fl).
    rewrite Hp. case_bool_decide; eauto. }
  assert (Hsome : is_Some (batch_file_path fr) → is_Some (batch_file_path fr1)).
  { destruct Hfiles as [[-> _]|[-> _]]; eauto. }
  assert (Hgoal : match fl with
                  | Normal => and_then (finally_clause fr1) (λ _ fr2, Done Normal fr2)
                  | Exception =>
                      and_then (finally_clause (except_handler cfg item.2 fr1))
                        (λ _ fr2, Done Exception fr2)
                  end = and_then (finally_clause g) (λ _ fr2, Done fl fr2))
    by (subst g; by destruct fl).
  rewrite Hgoal. clear Hgoal.
  assert (Hfs : final_state (and_then (finally_clause g) (λ _ fr2, Done fl fr2))
                = final_state (finally_clause g)) by (by destruct (finally_clause g)).
  rewrite Hfs. clear Hfs.
  set (fr2 := final_state (finally_clause g)) in *.
  assert (Hgtr : trace (world fr1) `suffix_of` trace (world g)).
  { subst g. destruct fl; simpl; [done | by do 2 apply suffix_cons_r]. }
  split; [by do 2 (etrans; [eassumption|])|].
  split.
  { intros p Hp. rewrite Foth by (intros; by apply Hp).
    rewrite <- (Hoth p Hp). subst g. destruct fl; simpl; [done|]. by rewrite !Hp. }
  split; [rewrite F3, <- Hbc; subst g; by destruct fl|].
  split.
  { destruct Hrows as (rows & Hr & Hall). exists rows. split; [|done].
    rewrite F1, <- Hr. subst g; by destruct fl. }
  split; [done|].
  split.
  2:{ split.
      - destruct (finally_clause g) as [[] ?|? ?] eqn:Hg; simpl; [|done].
        destruct Fcase as (path & Hp & _). rewrite F4, Hp. eauto.
      - intros Hb. destruct (Hbp' (Hsome Hb)) as [fr3 Hfr3].
        subst fr2. rewrite Hfr3. simpl. eauto. }
  assert (Hg1 : ∀ p, N p g = N p fr1 + match fl with
             | Normal => 0
             | Exception =>
                 (if p (Sleep (retry_delay cfg)) then 1 else 0)
                 + (if p (Log (ErrorProcessing item.2)) then 1 else 0)
             end).
  { intros p. subst g. destruct fl; simpl; lia. }
  assert (Hg2 : failed_output_smiles g = failed_output_smiles fr1
                ∧ invalid_smiles_indices (world g) = invalid_smiles_indices (world fr1)
                ∧ success g = success fr1 ∧ batch_file_path g = batch_file_path fr1)
    by (subst g; by destruct fl).
  destruct Hg2 as (G1 & G2 & G3 & G4).
  rewrite Hg1 in Fa, Fi, Fk, Fh, Fs, Fx, Fc, Ff, Fsl, Frd. simpl in *.
  rewrite Nat.eqb_refl in Frd.
  rewrite G1 in F2. rewrite G2 in F6. rewrite G3 in F5. rewrite G4 in F4.
  exists (N is_invocation fr1 - N is_invocation fr), (N is_check fr1 - N is_check fr).
  destruct Hcase as [H|[H|[H|H]]].
  - destruct H as (-> & Hs & Hc1 & Hc2 & Hc3 & [Hu1 Hu2] & Hb).
    exists 0, 1, 0, 0, (N is_failed_read fr1 - N is_failed_read fr).
    destruct (Hbp' ltac:(rewrite Hb; eauto)) as [fr3 ->]. simpl.
    unfold tally, ledger. rewrite F5, Hs, F2, F6, Hu1, Hu2.
    destruct round_desc; simpl; rewrite ?app_nil_r; repeat split; try done; lia.
  - destruct H as (-> & Hs & Hc1 & Hc2 & Hc3 & Hc4 & Hrec & Hb).
    exists 0, 0, 1, 0, (N is_failed_read fr1 - N is_failed_read fr).
    destruct (Hbp' ltac:(rewrite Hb; eauto)) as [fr3 ->]. simpl.
    unfold tally, ledger. unfold recorded in Hrec. rewrite F5, Hs, F2, F6.
    destruct round_desc; destruct Hrec as [-> ->]; simpl; rewrite ?app_nil_r;
      repeat split; try done; lia.
  - destruct H as (-> & Hs & Hc1 & Hc2 & Hc3 & Hu1 & Hu2 & Hb).
    exists 0, 0, 0, 1, (N is_failed_read fr1 - N is_failed_read fr).
    unfold tally, ledger. rewrite F5, Hs, F2, F6, Hu1, Hu2.
    destruct (finally_clause g) as [[] fr3|e fr3]; simpl.
    + destruct round_desc; simpl; rewrite ?app_nil_r; repeat split; try done; lia.
    + destruct Fcase as (-> & Hnone & _). rewrite G4, Hb in Hnone.
      destruct round_desc; simpl; rewrite ?app_nil_r; repeat split; try done; lia.
  - destruct H as (-> & Hs & Hc1 & Hc2 & Hc3 & [Hu1 Hu2] & Hb).
    exists 1, 0, 0, 0, (N is_failed_read fr1 - N is_failed_read fr).
    destruct (Hbp' ltac:(rewrite Hb; eauto)) as [fr3 ->]. simpl.
    unfold tally, ledger. rewrite F5, Hs, F2, F6, Hu1, Hu2.
    destruct round_desc; simpl; rewrite ?app_nil_r; repeat split; try done; lia.
Qed.

Lemma retry_loop_spec n item fr :
  success fr = false →
  let o := retry_loop env cfg round_desc n item fr in
  let fr' := final_state o in
  trace (world fr) `suffix_of` trace (world fr')
  ∧ (∀ p, (∀ e, is_item_event e = true → p e = false) → N p fr' = N p fr)
  ∧ batch_count fr' = batch_count fr
  ∧ (∃ rows, all_hsp_full fr' = all_hsp_full fr ++ rows ∧ Forall (λ r, r.2 = item.2) rows)
  ∧ (files (world fr) = [] → files (world fr') = [])
  ∧ (∃ a i k h s x c f,
        tally cfg fr fr' a i k h s x c f
        ∧ a ≤ n ∧ a = h + s + x + c ∧ s + x + c ≤ 1
        ∧ i ≤ a ∧ k ≤ max_output_retries cfg * i
        ∧ s = (if success fr' then 1 else 0)
        ∧ ledger round_desc item fr fr' x c
        ∧ (x = 1 → max_output_retries cfg ≤ f)
        ∧ match o with
          | Done _ _ => s + x + c = 0 → h = n
          | Raised e _ =>
              e = UnboundLocalError "batch_file_path" ∧ batch_file_path fr = None
              ∧ h = 0 ∧ a = 1 ∧ c = 1
          end)
  ∧ (is_Some (batch_file_path fr) → ∃ fr'', o = Done tt fr'').
Proof.
  revert fr. induction n as [|n IH]; intros fr Hs0; simpl.
  { split; [done|]. split; [done|]. split; [done|].
    split; [exists []; by rewrite app_nil_r|]. split; [done|].
    split; [|eauto].
    exists 0, 0, 0, 0, 0, 0, 0, 0. unfold tally, ledger. rewrite Hs0.
    destruct round_desc; simpl; rewrite ?app_nil_r; repeat split; try done; lia. }
  destruct (attempt_spec item fr Hs0)
    as (Asuf & Aoth & Abc & Arows & Afiles & Atally & Asome & Adone).
  destruct (attempt env cfg round_desc item fr) as [[|] fr1|e fr1] eqn:Hat; simpl in *.
  - (* break *)
    split; [done|]. split; [done|]. split; [done|]. split; [done|]. split; [done|].
    split; [|eauto].
    destruct Atally as (i & k & h & s & x & c & f & Ht & Hi & Hk & Hs & Hl & Hx & Hh & Hsum).
    exists 1, i, k, h, s, x, c, f. unfold tally in *. repeat split; try done; lia.
  - (* the handler ran: next attempt *)
    destruct Atally as (i & k & h & s & x & c & f & Ht & Hi & Hk & Hs & Hl & Hx & Hh & Hsum).
    assert (Hs1 : success fr1 = false) by (destruct (success fr1); [lia|done]).
    assert (x = 0 ∧ c = 0 ∧ s = 0) as (-> & -> & ->) by lia. subst h.
    destruct (IH fr1 Hs1)
      as (Isuf & Ioth & Ibc & Irows & Ifiles & Itally & Idone). clear IH.
    split; [by etrans|].
    split; [intros p Hp; by rewrite Ioth, Aoth|].
    split; [congruence|].
    split.
    { destruct Arows as (r1 & Hr1 & ?), Irows as (r2 & Hr2 & ?).
      exists (r1 ++ r2). rewrite Hr2, Hr1, app_assoc. split; [done | by apply Forall_app]. }
    split; [auto|].
    split; [| intros _; by apply Idone].
    destruct Itally
      as (a2 & i2 & k2 & h2 & s2 & x2 & c2 & f2 & Ht2 & Ha2 & Hsum2 & Hle2 & Hi2 & Hk2
          & Hs2 & Hl2 & Hx2 & Hfin).
    exists (S a2), (i + i2), (k + k2), (S h2), s2, x2, c2, (f + f2).
    unfold tally in *.
    split; [lia|]. split; [lia|]. split; [lia|]. split; [lia|]. split; [lia|].
    split; [nia|]. split; [done|].
    split.
    { unfold ledger in *. destruct round_desc; simpl in *; rewrite ?app_nil_r in *;
        destruct Hl as [Hl1 Hl1'], Hl2 as [Hl3 Hl3']; rewrite Hl3, Hl3', Hl1, Hl1'; done. }
    split; [lia|].
    destruct (retry_loop env cfg round_desc n item fr1) as [? ?|? ?]; simpl in *.
    + lia.
    + destruct Hfin as (_ & Hnone & _). destruct Asome as [? Hq]. congruence.
  - (* [finally] raised *)
    split; [done|]. split; [done|]. split; [done|]. split; [done|]. split; [done|].
    split.
    + destruct Atally as (i & k & h & s & x & c & f & Ht & Hi & Hk & Hs & Hl & Hx & Hh).
      destruct Hh as (He & Hnone & -> & -> & -> & ->).
      exists 1, i, k, 0, 0, 0, 1, f. unfold tally in *. repeat split; try done; lia.
    + intros Hb. destruct (Adone Hb) as [? ?]. done.
Qed.
End ItemLemmas.

Section RoundLemmas.

Context (env : Env) (cfg : Config) (round_desc : Round).

Abbreviation N p fr := (count p (trace (world fr))).

Lemma process_item_spec item fr :
  let o := process_item env cfg round_desc item fr in
  let fr' := final_state o in
  trace (world fr) `suffix_of` trace (world fr')
  ∧ (∀ p, (∀ e, is_item_event e = true → p e = false) → N p fr' = N p fr)
  ∧ batch_count fr' = batch_count fr
  ∧ (∃ rows, all_hsp_full fr' = all_hsp_full fr ++ rows ∧ Forall (λ r, r.2 = item.2) rows)
  ∧ (files (world fr) = [] → files (world fr') = [])
  ∧ (∃ x h,
        N is_read_exhaustion fr' = N is_read_exhaustion fr + x
        ∧ N is_handler_entry fr' = N is_handler_entry fr + h
        ∧ x ≤ 1 ∧ h ≤ max_retries cfg
        ∧ (success fr' = true → x = 0)
        ∧ (h = max_retries cfg → x = 0 ∧ success fr' = false)
        ∧ match o with
          | Done _ _ =>
              match round_desc with
              | initial =>
                  failed_output_smiles fr'
                  = failed_output_smiles fr
                    ++ replicate (x + if success fr' then 0 else 1) item
              | retry => failed_output_smiles fr' = failed_output_smiles fr
              end
          | Raised e _ =>
              e = UnboundLocalError "batch_file_path" ∧ batch_file_path fr = None
          end)
  ∧ (is_Some (batch_file_path fr) → ∃ fr'', o = Done tt fr'').
Proof.
  intros o fr'. subst o fr'. unfold process_item.
  assert (Hs0 : success (set_success false fr) = false) by done.
  destruct (retry_loop_spec env cfg round_desc (max_retries cfg) item _ Hs0)
    as (Rsuf & Roth & Rbc & Rrows & Rfiles & Rtally & Rdone).
  simpl in *.
  destruct Rtally as (a & i & k & h & s & x & c & f & Ht & Ha & Hsum & Hle & Hi & Hk
                      & Hs & Hl & Hx & Hfin).
  unfold tally in Ht. simpl in Ht.
  destruct (retry_loop env cfg round_desc (max_retries cfg) item (set_success false fr))
    as [[] fr1|e fr1] eqn:Hloop; simpl in *.
  - destruct (success fr1) eqn:Hs1; simpl.
    + split; [by do 2 apply suffix_cons_r|].
      split; [intros p Hp; by rewrite !Hp, Roth|].
      split; [done|]. split; [done|]. split; [done|].
      split; [|eauto].
      exists x, h. rewrite Hs1.
      unfold ledger in Hl. simpl in Hl.
      repeat split; try lia.
      destruct round_desc; destruct Hl as [Hl _]; rewrite Hl; [|done].
      assert (x = 0) as -> by lia. done.
    + unfold record_failure.
      split; [destruct round_desc; simpl; by do 3 apply suffix_cons_r|].
      split; [intros p Hp; destruct round_desc; simpl; by rewrite !Hp, Roth|].
      split; [by destruct round_desc|]. split; [by destruct round_desc|].
      split; [by destruct round_desc|].
      split; [|eauto].
      exists x, h.
      unfold ledger in Hl. simpl in Hl.
      destruct round_desc; simpl; rewrite Hs1; destruct Hl as [Hl _]; rewrite Hl;
        repeat split; try lia; try done.
      rewrite <- app_assoc. f_equal. destruct x as [|[|?]]; [done|done|lia].
  - split; [done|]. split; [done|]. split; [done|]. split; [done|]. split; [done|].
    split.
    + exists x, h. destruct Hfin as (-> & Hnone & -> & -> & ->).
      destruct (success fr1); repeat split; try lia; try done.
    + intros Hb. destruct (Rdone Hb) as [? ?]. done.
Qed.


Context (original_smiles : list string).

Local Arguments Nat.modulo : simpl never.

Lemma quiet_item p : quiet original_smiles p → ∀ e, is_item_event e = true → p e = false.
Proof. by intros [? _]. Qed.

Lemma process_items_spec batch fr :
  let fr' := final_state (process_items env cfg round_desc batch fr) in
  trace (world fr) `suffix_of` trace (world fr')
  ∧ (∀ p, (∀ e, is_item_event e = true → p e = false) → N p fr' = N p fr)
  ∧ batch_count fr' = batch_count fr
  ∧ (∃ rows, all_hsp_full fr' = all_hsp_full fr ++ rows
             ∧ Forall (λ r, r.2 ∈ batch.*2) rows).
Proof.
  revert fr. induction batch as [|item rest IH]; intros fr; simpl.
  { repeat split; try done. exists []. by rewrite app_nil_r. }
  destruct (process_item_spec item fr) as (Psuf & Poth & Pbc & Prows & _).
  destruct (process_item env cfg round_desc item fr) as [[] fr1|e fr1]; simpl in *.
  - destruct (IH fr1) as (Isuf & Ioth & Ibc & Irows).
    split; [by etrans|].
    split; [intros p Hp; by rewrite Ioth, Poth|].
    split; [congruence|].
    destruct Prows as (r1 & Hr1 & H1), Irows as (r2 & Hr2 & H2).
    exists (r1 ++ r2). rewrite Hr2, Hr1, app_assoc. split; [done|].
    apply Forall_app. split.
    + eapply Forall_impl; [exact H1|]. intros r ->. left.
    + eapply Forall_impl; [exact H2|]. intros r ?. by right.
  - repeat split; try done.
    destruct Prows as (r1 & Hr1 & H1). exists r1. split; [done|].
    eapply Forall_impl; [exact H1|]. intros r ->. left.
Qed.

Lemma assemble_length results (t : Table) :
  assemble results original_smiles = Ok t → length t = length original_smiles.
Proof.
  unfold assemble. destruct (place_results _ _); [|done].
  intros [= <-]. by rewrite length_imap.
Qed.

Lemma checkpoint_spec fr :
  let o := checkpoint original_smiles fr in
  let fr' := final_state o in
  trace (world fr) `suffix_of` trace (world fr')
  ∧ (∀ p, quiet original_smiles p → N p fr' = N p fr)
  ∧ batch_count fr' = batch_count fr
  ∧ all_hsp_full fr' = all_hsp_full fr
  ∧ match o with
    | Done _ _ => checkpoints (world fr') = checkpoints (world fr) ++ [batch_count fr]
    | Raised _ _ => True
    end.
Proof.
  unfold checkpoint, save_intermediate_results.
  destruct (assemble _ _) as [t|e] eqn:Ht; simpl.
  - split; [by apply suffix_cons_r|].
    split; [intros p [_ Hp]; rewrite Hp; [done | by eapply assemble_length]|].
    repeat split; try done.
    unfold checkpoints, checkpoints_of. simpl. by rewrite reverse_cons.
  - repeat split; done.
Qed.

Lemma batch_body_spec smiles_list batch_start fr :
  let o := batch_body env cfg round_desc original_smiles smiles_list batch_start fr in
  let fr' := final_state o in
  trace (world fr) `suffix_of` trace (world fr')
  ∧ (∀ p, quiet original_smiles p → N p fr' = N p fr)
  ∧ batch_count fr' = S (batch_count fr)
  ∧ (∃ rows, all_hsp_full fr' = all_hsp_full fr ++ rows
             ∧ Forall (λ r, r.2 ∈ smiles_list.*2) rows)
  ∧ match o with
    | Done _ _ =>
        checkpoints (world fr')
        = checkpoints (world fr)
          ++ (if decide (S (batch_count fr) mod 10 = 0) then [S (batch_count fr)] else [])
    | Raised _ _ => True
    end.
Proof.
  unfold batch_body.
  set (batch := take _ (drop batch_start smiles_list)).
  set (fr0 := on_world _ (next_batch fr)).
  destruct (process_items_spec batch fr0) as (Psuf & Poth & Pbc & Prows).
  assert (Hbc0 : batch_count fr0 = S (batch_count fr)) by done.
  rewrite Hbc0 in Pbc. clear Hbc0.
  assert (Hsub : ∀ (r : Row * nat), r.2 ∈ batch.*2 → r.2 ∈ smiles_list.*2).
  { intros r. subst batch. rewrite !list_elem_of_fmap.
    intros ((x & i) & -> & Hin). exists (x, i). split; [done|].
    by apply subseteq_take, subseteq_drop in Hin. }
  assert (Hrows : ∃ rows, all_hsp_full (final_state (process_items env cfg round_desc batch fr0))
             = all_hsp_full fr ++ rows ∧ Forall (λ r, r.2 ∈ smiles_list.*2) rows).
  { destruct Prows as (rows & Hr & Hall). exists rows. split; [done|].
    eapply Forall_impl; [exact Hall|]. done. }
  clear Prows.
  assert (Hcp0 : ∀ g, count is_save (trace (world g)) = count is_save (trace (world fr0)) →
                 trace (world fr0) `suffix_of` trace (world g) →
                 checkpoints (world g) = checkpoints (world fr)).
  { intros g Hcount [d Hd]. unfold checkpoints. rewrite Hd, checkpoints_of_app.
    rewrite Hd, count_app in Hcount.
    assert (count is_save d = 0) as Hz by lia.
    assert (checkpoints_of d = []) as ->.
    { clear -Hz. unfold checkpoints_of. induction d as [|e d IH]; [done|].
      simpl in Hz. destruct e; simpl in *; try done; try (apply IH; lia). }
    rewrite app_nil_r. subst fr0. simpl. unfold checkpoints_of. simpl. done. }
  destruct (process_items env cfg round_desc batch fr0) as [[] fr1|e fr1]; simpl in *.
  2:{ split; [etrans; [|exact Psuf]; by apply suffix_cons_r|].
      split; [intros p Hq; rewrite Poth by (by apply quiet_item); subst fr0; simpl;
              by rewrite (quiet_item p Hq)|].
      split; [done|]. split; [exact Hrows|done]. }
  specialize (Hcp0 fr1 (Poth is_save ltac:(by intros [| | | | | | | | |[]| |])) Psuf).
  destruct (decide (batch_count fr1 mod 10 = 0)) as [Hmod|Hmod].
  - destruct (checkpoint_spec fr1) as (Csuf & Coth & Cbc & Chsp & Ccp).
    rewrite Pbc in Hmod. simpl in Hmod.
    destruct (checkpoint original_smiles fr1) as [[] fr2|e fr2]; simpl in *.
    + rewrite (decide_True (P := S (batch_count fr) mod 10 = 0)) by done.
      assert (Hfin : ∀ (b : bool) , trace (world fr) `suffix_of`
                trace (world (if b then on_world (sleep 10) fr2 else fr2))).
      { intros b. etrans; [|shelve]. etrans; [|exact Csuf]. etrans; [|exact Psuf].
        by apply suffix_cons_r. Unshelve. destruct b; [by apply suffix_cons_r|done]. }
      split; [destruct (decide (_ < _)); [apply (Hfin true)|apply (Hfin false)]|].
      split.
      { intros p Hq. destruct (decide (_ < _)); simpl;
          rewrite ?(quiet_item p Hq) by done; rewrite Coth by done;
          rewrite Poth by (by apply quiet_item); subst fr0; simpl;
          by rewrite (quiet_item p Hq). }
      split; [destruct (decide (_ < _)); simpl; congruence|].
      split; [destruct (decide (_ < _)); simpl; by rewrite Chsp|].
      assert (Hsl : checkpoints (world (on_world (sleep 10) fr2)) = checkpoints (world fr2))
        by done.
      destruct (decide (_ < _)); rewrite ?Hsl, Ccp, Hcp0, Pbc; done.
    + split; [etrans; [|exact Csuf]; etrans; [|exact Psuf]; by apply suffix_cons_r|].
      split.
      { intros p Hq. rewrite Coth by done.
        rewrite Poth by (by apply quiet_item); subst fr0; simpl;
          by rewrite (quiet_item p Hq). }
      split; [congruence|]. split; [by rewrite Chsp|done].
  - simpl. rewrite Pbc in Hmod. simpl in Hmod. rewrite (decide_False (P := S (batch_count fr) mod 10 = 0)) by done.
    split; [destruct (decide (_ < _)); simpl; repeat apply suffix_cons_r;
            (etrans; [|exact Psuf]); by apply suffix_cons_r|].
    split.
    { intros p Hq. destruct (decide (_ < _)); simpl;
        rewrite ?(quiet_item p Hq) by done;
        rewrite Poth by (by apply quiet_item); subst fr0; simpl;
        by rewrite (quiet_item p Hq). }
    split; [destruct (decide (_ < _)); simpl; congruence|].
    split; [destruct (decide (_ < _)); simpl; done|].
    assert (Hsl : checkpoints (world (on_world (sleep 10) fr1)) = checkpoints (world fr1))
      by done.
    rewrite app_nil_r. destruct (decide (_ < _)); rewrite ?Hsl, Hcp0; done.
Qed.


Lemma batch_loop_spec smiles_list starts fr :
  let o := batch_loop env cfg round_desc original_smiles smiles_list starts fr in
  let fr' := final_state o in
  trace (world fr) `suffix_of` trace (world fr')
  ∧ (∀ p, quiet original_smiles p → N p fr' = N p fr)
  ∧ (∃ rows, all_hsp_full fr' = all_hsp_full fr ++ rows
             ∧ Forall (λ r, r.2 ∈ smiles_list.*2) rows)
  ∧ match o with
    | Done _ _ =>
        batch_count fr' = batch_count fr + length starts
        ∧ checkpoints (world fr')
          = checkpoints (world fr)
            ++ filter (λ n, n mod 10 = 0) (seq (S (batch_count fr)) (length starts))
    | Raised _ _ => True
    end.
Proof.
  revert fr. induction starts as [|batch_start rest IH]; intros fr; simpl.
  { split; [done|]. split; [done|]. split; [exists []; by rewrite app_nil_r|].
    split; [lia | by rewrite app_nil_r]. }
  destruct (batch_body_spec smiles_list batch_start fr) as (Bsuf & Both & Bbc & Brows & Bcp).
  destruct (batch_body env cfg round_desc original_smiles smiles_list batch_start fr)
    as [[] fr1|e fr1]; simpl in *; [|done].
  destruct (IH fr1) as (Isuf & Ioth & Irows & Icp). clear IH.
  split; [by etrans|].
  split; [intros p Hq; by rewrite Ioth, Both|].
  split.
  { destruct Brows as (r1 & Hr1 & H1), Irows as (r2 & Hr2 & H2).
    exists (r1 ++ r2). rewrite Hr2, Hr1, app_assoc. split; [done | by apply Forall_app]. }
  destruct (batch_loop env cfg round_desc original_smiles smiles_list rest fr1)
    as [[] fr2|e fr2]; simpl in *; [|done].
  destruct Icp as [Ibc Icp]. split; [lia|].
  rewrite Icp, Bcp, Bbc, <- app_assoc. f_equal.
  rewrite filter_cons. by destruct (decide _).
Qed.

Lemma process_smiles_batch_spec smiles_list w :
  let o := process_smiles_batch env cfg round_desc original_smiles smiles_list w in
  let fr' := final_state o in
  let B := length (range_from (length smiles_list) 0 (length smiles_list) (batch_size cfg)) in
  trace w `suffix_of` trace (world fr')
  ∧ (∀ p, quiet original_smiles p → N p fr' = count p (trace w))
  ∧ Forall (λ r, r.2 ∈ smiles_list.*2) (all_hsp_full fr')
  ∧ match o with
    | Done _ _ =>
        batch_count fr' = B
        ∧ checkpoints (world fr')
          = checkpoints w ++ filter (λ n, n mod 10 = 0) (seq 1 B)
            ++ (if decide (B mod 10 ≠ 0) then [B] else [])
    | Raised _ _ => True
    end.
Proof.
  unfold process_smiles_batch. destruct (decide (batch_size cfg = 0)); simpl; [done|].
  set (starts := range_from _ _ _ _).
  destruct (batch_loop_spec smiles_list starts (new_frame w)) as (Lsuf & Loth & Lrows & Lcp).
  destruct (batch_loop env cfg round_desc original_smiles smiles_list starts (new_frame w))
    as [[] fr1|e fr1]; simpl in *.
  2:{ repeat split; try done. by destruct Lrows as (rows & -> & ?). }
  destruct Lcp as [Lbc Lcp]. rewrite Lbc.
  destruct (decide (length starts mod 10 ≠ 0)) as [Hmod|Hmod].
  - destruct (checkpoint_spec fr1) as (Csuf & Coth & Cbc & Chsp & Ccp).
    destruct (checkpoint original_smiles fr1) as [[] fr2|e fr2]; simpl in *.
    + split; [by etrans|]. split; [intros p Hq; by rewrite Coth, Loth|].
      split; [rewrite Chsp; by destruct Lrows as (rows & -> & ?)|].
      split; [congruence|]. rewrite Ccp, Lcp, Lbc, <- app_assoc. done.
    + split; [by etrans|]. split; [intros p Hq; by rewrite Coth, Loth|].
      split; [rewrite Chsp; by destruct Lrows as (rows & -> & ?)|done].
  - simpl. split; [done|]. split; [done|].
    split; [by destruct Lrows as (rows & -> & ?)|].
    split; [done|]. by rewrite Lcp, app_nil_r.
Qed.

End RoundLemmas.


Lemma range_from_length (fuel start stop step : nat) :
  0 < step → stop - start ≤ fuel →
  length (range_from fuel start stop step) = (stop - start + step - 1) / step.
Proof.
  intros Hstep. revert start. induction fuel as [|fuel IH]; intros start Hfuel; simpl.
  { replace (stop - start) with 0 by lia. simpl.
    symmetry. apply Nat.div_small. lia. }
  destruct (decide (start < stop)) as [Hlt|Hge]; simpl.
  - rewrite IH by lia.
    destruct (decide (stop - start ≤ step)) as [Hsmall|Hbig].
    + replace (stop - (start + step)) with 0 by lia. simpl.
      rewrite (Nat.div_small (step - 1)) by lia.
      apply (Nat.div_unique _ _ 1 (stop - start - 1)); lia.
    + replace (stop - start + step - 1) with ((stop - (start + step) + step - 1) + 1 * step)
        by lia.
      rewrite Nat.div_add by lia. lia.
  - replace (stop - start) with 0 by lia. simpl. symmetry. apply Nat.div_small. lia.
Qed.

(** ** Properties of the pipeline *)

Lemma validate_loop_other env (p : Event → bool) indices items valid w :
  (∀ e, is_item_event e = true → p e = false) →
  count p (trace (final_state (validate_loop env indices items valid w))) = count p (trace w).
Proof.
  intros Hp. revert valid w. induction items as [|[i smi] rest IH]; intros valid w; simpl; [done|].
  destruct (indices !! i); simpl; [|by rewrite Hp].
  destruct (MolFromSmiles env _ _); rewrite IH; simpl; by rewrite !Hp.
Qed.

Lemma final_save_quiet original_smiles : quiet original_smiles is_final_save.
Proof. split; [by intros [| | | | | | | | |[]| |]|done]. Qed.

(** C1 (fails on the code). The claim: for every input list the program
    terminates normally and writes final output files. The code: for every
    environment, input list and starting world, [main] ends with an
    exception and no final table has been written. When the first round
    returns, the read of the module-level name [failed_output_smiles]
    raises [NameError], because that name is bound only as a local of
    [process_smiles_batch]. *)
Theorem main_stops_before_final_output (env : Env) (all_smiles : list string) (w : World) :
  ∃ e w', main env all_smiles w = Raised e w'
          ∧ count is_final_save (trace w') = count is_final_save (trace w).
Proof.
  unfold main, validate.
  pose proof (validate_loop_other env is_final_save (valid_smiles_indices_of all_smiles)
                (enumerate (without_sentinel all_smiles)) [] w
                (quiet_item _ _ (final_save_quiet all_smiles))) as Hv.
  destruct (validate_loop _ _ _ _ _) as [valid w1|e w1]; simpl in *; [|eauto].
  unfold call_process_smiles_batch.
  destruct (process_smiles_batch_spec env default_config initial all_smiles valid w1)
    as (_ & Hoth & _).
  specialize (Hoth is_final_save (final_save_quiet all_smiles)).
  destruct (process_smiles_batch _ _ _ _ _ _) as [[] fr|e fr]; simpl in *.
  - eexists _, _. split; [done|]. congruence.
  - eexists _, _. split; [done|]. congruence.
Qed.

(** C2 (fails on the code). The claim: an item whose output read is
    exhausted in the initial round is replayed in a second pass and, if that
    pass succeeds, the final table holds its real record. The code, on the
    single identifier "CCO" with an output file that appears only after the
    first round: the read is exhausted once, the end-of-round checkpoint
    holds the placeholder row, and the run stops with [NameError] on
    [failed_output_smiles] after one invocation; no second pass runs and no
    final table is written. *)
Theorem second_round_is_never_dispatched :
  ∃ w', main (env_output_from 100) ["CCO"] initial_world
        = Raised (NameError "failed_output_smiles") w'
        ∧ count is_read_exhaustion (trace w') = 1
        ∧ count is_invocation (trace w') = 1
        ∧ head (trace w') = Some (SaveIntermediate 1 [("CCO", empty_df)])
        ∧ count is_final_save (trace w') = 0.
Proof. eexists. split; [vm_compute; reflexivity|]. vm_compute. done. Qed.

(** C7 (fails on the code). The claim: cleanup of the command script
    completes without error even when the attempt aborts before the script
    is created. The code, on the single identifier "CCO" whose
    canonicalization fails at dispatch: the [finally] clause reads
    [batch_file_path], which no attempt of this call has assigned, and
    [UnboundLocalError] ends the run before any checkpoint. *)
Theorem cleanup_raises_before_first_script :
  ∃ w', main env_canon_fails ["CCO"] initial_world
        = Raised (UnboundLocalError "batch_file_path") w'
        ∧ head (trace w') = Some (Log (FailedToCanonicalize 0))
        ∧ count is_save (trace w') = 0.
Proof. eexists. split; [vm_compute; reflexivity|]. vm_compute. done. Qed.

(** Whatever way an attempt ends, it leaves no command script behind
    when there was none before it. *)
Lemma attempt_leaves_no_script
    (env : Env) (cfg : Config) (round_desc : Round) (item : WorkItem) (fr : Frame) :
  success fr = false →
  files (world fr) = [] →
  files (world (final_state (attempt env cfg round_desc item fr))) = [].
Proof. intros Hs0. by destruct (attempt_spec env cfg round_desc item fr Hs0) as (_&_&_&_&H&_). Qed.

(** C4. In the initial round, an item whose output-read loop is
    exhausted (the "max output retries reached" branch is logged for it) is
    appended to [failed_output_smiles], the list handed to the second round,
    exactly twice: once in the read-exhaustion branch and once by the
    post-loop failure check. *)
Theorem read_exhaustion_queues_item_twice
    (env : Env) (cfg : Config) (item : WorkItem) (fr fr' : Frame) :
  process_item env cfg initial item fr = Done tt fr' →
  Log (MaxOutputRetriesReached item.2) ∈ new_events (world fr) (world fr') →
  failed_output_smiles fr' = failed_output_smiles fr ++ [item; item].
Proof.
  intros Hrun Hin.
  destruct (process_item_spec env cfg initial item fr) as (Hsuf & _ & _ & _ & _ & Hx & _).
  rewrite Hrun in Hsuf, Hx. simpl in Hsuf, Hx.
  destruct Hx as (x & h & Hx & _ & Hx1 & _ & Hsucc & _ & ->).
  pose proof (count_new_events is_read_exhaustion _ _ Hsuf) as Hc.
  pose proof (count_elem_of is_read_exhaustion _ _ Hin eq_refl) as H1.
  assert (x = 1) as -> by lia.
  destruct (success fr'); [by specialize (Hsucc eq_refl)|done].
Qed.

Lemma read_exhaustion_queues_item_twice_witness :
  ∃ fr', process_item (env_output_from 100) default_config initial ("CCO", 0)
           (new_frame initial_world) = Done tt fr'
         ∧ failed_output_smiles fr'
           = failed_output_smiles (new_frame initial_world) ++ [("CCO", 0); ("CCO", 0)].
Proof.
  eexists. split; [vm_compute; reflexivity|].
  apply (read_exhaustion_queues_item_twice (env_output_from 100) default_config ("CCO", 0)).
  - vm_compute. reflexivity.
  - apply (bool_decide_unpack _). vm_compute. exact I.
Defined.







Lemma short_table_quiet original_smiles : quiet original_smiles (is_short_table (length original_smiles)).
Proof.
  split; [by intros [| | | | | | | | |[]| |]|].
  intros n t Ht. simpl. rewrite Ht, Nat.eqb_refl. done.
Qed.

(** C8. A round that returns has processed [B] batches, the number of
    chunks of [batch_size] in the work list; it wrote a checkpoint after
    every batch whose number is a multiple of 10, in order, and one more
    after batch [B] exactly when [B] is not a multiple of 10; every table
    it saved has one row per original identifier; and with batch size 100
    and 1050 items the checkpoints are those after batch 10 and batch 11. *)
Theorem checkpoint_cadence
    (env : Env) (cfg : Config) (round_desc : Round) (original_smiles : list string)
    (smiles_list : list WorkItem) (w : World) (fr' : Frame) :
  process_smiles_batch env cfg round_desc original_smiles smiles_list w = Done tt fr' →
  let B := num_batches (length smiles_list) (batch_size cfg) in
  B = (length smiles_list + batch_size cfg - 1) / batch_size cfg
  ∧ batch_count fr' = B
  ∧ checkpoints (world fr')
    = checkpoints w ++ filter (λ n, n mod 10 = 0) (seq 1 B)
      ++ (if decide (B mod 10 ≠ 0) then [B] else [])
  ∧ count (is_short_table (length original_smiles)) (new_events w (world fr')) = 0
  ∧ (batch_size cfg = 100 → length smiles_list = 1050 →
     checkpoints (world fr') = checkpoints w ++ [10; 11]).
Proof.
  intros Hrun B.
  destruct (process_smiles_batch_spec env cfg round_desc original_smiles smiles_list w)
    as (Hsuf & Hoth & _ & Hcp).
  assert (Hsize : batch_size cfg ≠ 0).
  { intros Hz. unfold process_smiles_batch in Hrun. by rewrite decide_True in Hrun. }
  rewrite Hrun in Hsuf, Hoth, Hcp. simpl in Hsuf, Hoth, Hcp.
  destruct Hcp as [Hbc Hcp]. fold (num_batches (length smiles_list) (batch_size cfg)) in Hbc, Hcp.
  fold B in Hbc, Hcp.
  split.
  { subst B. unfold num_batches. rewrite range_from_length by lia. f_equal. lia. }
  split; [done|]. split; [done|].
  split.
  { pose proof (count_new_events (is_short_table (length original_smiles)) _ _ Hsuf) as Hc.
    rewrite (Hoth _ (short_table_quiet original_smiles)) in Hc. lia. }
  intros Hbs Hlen. rewrite Hcp. subst B. rewrite Hbs, Hlen. reflexivity.
Qed.

Lemma checkpoint_cadence_witness :
  ∃ fr', process_smiles_batch env_quick default_config initial (many_smiles 1050)
           (many_items 1050) initial_world = Done tt fr'
         ∧ checkpoints (world fr') = checkpoints initial_world ++ [10; 11].
Proof.
  eexists. split; [vm_compute; reflexivity|].
  refine (proj2 (proj2 (proj2 (proj2
    (checkpoint_cadence env_quick default_config initial (many_smiles 1050)
       (many_items 1050) initial_world _ _)))) eq_refl _).
  - vm_compute. reflexivity.
  - vm_compute. reflexivity.
Defined.







Lemma imap_snd_filter {A} (P : A → Prop) `{!∀ x, Decision (P x)} (k : nat) (l : list A) :
  (filter (λ p, P p.2) (imap (λ i x, (k + i, x)) l)).*2 = filter P l.
Proof.
  revert k. induction l as [|x l IH]; intros k; [done|].
  simpl. rewrite !filter_cons. simpl.
  assert (Hshift : imap ((λ i x0, (k + i, x0)) ∘ S) l = imap (λ i x0, (S k + i, x0)) l).
  { apply imap_ext. intros i y _. simpl. f_equal. lia. }
  rewrite Hshift. destruct (decide (P x)); simpl; [f_equal|]; apply (IH (S k)).
Qed.

Lemma without_sentinel_kept (all_smiles : list string) :
  without_sentinel all_smiles = (kept all_smiles).*2.
Proof.
  unfold without_sentinel, kept, enumerate.
  symmetry. exact (imap_snd_filter (λ smi, smi ≠ sentinel) 0 all_smiles).
Qed.

Lemma elem_of_enumerate {A} (l : list A) (i : nat) (x : A) :
  (i, x) ∈ enumerate l ↔ l !! i = Some x.
Proof.
  unfold enumerate. rewrite list_elem_of_lookup. split.
  - intros [j Hj]. rewrite list_lookup_imap in Hj.
    destruct (l !! j) as [y|] eqn:Hy; simpl in Hj; [|done]. by injection Hj as <- <-.
  - intros Hi. exists i. by rewrite list_lookup_imap, Hi.
Qed.

Lemma elem_of_kept (all_smiles : list string) (i : nat) (smi : string) :
  (i, smi) ∈ kept all_smiles ↔ all_smiles !! i = Some smi ∧ smi ≠ sentinel.
Proof.
  unfold kept. rewrite list_elem_of_filter, elem_of_enumerate. simpl. tauto.
Qed.


Lemma validate_loop_spec (env : Env) (L : list (nat * string)) (k : nat)
    (valid : list WorkItem) (w : World) :
  ∃ valid' bad w',
    validate_loop env L.*1 (imap (λ i x, (k + i, x)) (drop k L).*2) valid w = Done valid' w'
    ∧ trace w `suffix_of` trace w'
    ∧ (∀ p, (∀ e, is_item_event e = true → p e = false) → count p (trace w') = count p (trace w))
    ∧ (∀ s, (∀ i, (i, s) ∉ L) →
            count (is_parse_of s) (trace w') = count (is_parse_of s) (trace w))
    ∧ invalid_smiles_indices w' = invalid_smiles_indices w ++ bad
    ∧ (∀ i, i ∈ bad → ∃ smi, (i, smi) ∈ L)
    ∧ ∃ new, valid' = valid ++ new ∧ ∀ smi i, (smi, i) ∈ new → (i, smi) ∈ L.
Proof.
  remember (length L - k) as n eqn:Hn. revert k valid w Hn.
  induction n as [|n IH]; intros k valid w Hn.
  { rewrite drop_ge by lia. simpl. exists valid, [], w.
    repeat split; try done; [by rewrite app_nil_r|intros i Hi; by apply not_elem_of_nil in Hi|].
    exists []. split; [by rewrite app_nil_r|]. intros ?? Hi. by apply not_elem_of_nil in Hi. }
  destruct (drop k L) as [|[oi smi] rest] eqn:Hdrop.
  { apply (f_equal length) in Hdrop. rewrite length_drop in Hdrop. simpl in Hdrop. lia. }
  assert (Hk : L !! k = Some (oi, smi)).
  { pose proof (lookup_drop L k 0) as X. rewrite Hdrop, Nat.add_0_r in X. done. }
  assert (Hrest : drop (S k) L = rest).
  { replace (S k) with (k + 1) by lia. rewrite <- drop_drop, Hdrop. done. }
  assert (Hshift : imap ((λ i x, (k + i, x)) ∘ S) rest.*2
                   = imap (λ i x, (S k + i, x)) (drop (S k) L).*2).
  { rewrite Hrest. apply imap_ext. intros i y _. simpl. f_equal. lia. }
  rewrite fmap_cons, imap_cons, Hshift. clear Hshift.
  assert (Hidx : L.*1 !! (k + 0) = Some oi) by (by rewrite Nat.add_0_r, list_lookup_fmap, Hk).
  cbn [validate_loop]. rewrite Hidx. cbn [snd].
  assert (Hin : (oi, smi) ∈ L) by (by eapply list_elem_of_lookup_2).
  assert (Hparse : ∀ s, (∀ i, (i, s) ∉ L) → is_parse_of s (CallMolFromSmiles smi) = false).
  { intros s Hs. simpl. apply bool_decide_eq_false. intros ->. by apply (Hs oi). }
  destruct (MolFromSmiles env (clock w) smi) as [|mol|].
  - edestruct (IH (S k) valid) as (valid' & bad & w' & Hrun & Hsuf & Hoth & Hnp & Hinv & Hbad & Hnew);
      [lia|].
    exists valid', (oi :: bad), w'. split; [exact Hrun|].
    split; [etrans; [|exact Hsuf]; by do 2 apply suffix_cons_r|].
    split; [intros p Hp; rewrite Hoth by done; simpl; by rewrite !Hp|].
    split; [intros s Hs; rewrite Hnp by done; simpl; by rewrite bool_decide_eq_false_2
              by (intros ->; by apply (Hs oi))|].
    split; [rewrite Hinv; simpl; by rewrite <- app_assoc|].
    split; [|done].
    intros i Hi. apply elem_of_cons in Hi as [->|Hi]; [eauto | by apply Hbad].
  - edestruct (IH (S k) (valid ++ [(smi, oi)]))
      as (valid' & bad & w' & Hrun & Hsuf & Hoth & Hnp & Hinv & Hbad & Hnew); [lia|].
    exists valid', bad, w'. split; [exact Hrun|].
    split; [etrans; [|exact Hsuf]; by do 2 apply suffix_cons_r|].
    split; [intros p Hp; rewrite Hoth by done; simpl; by rewrite !Hp|].
    split; [intros s Hs; rewrite Hnp by done; simpl; by rewrite bool_decide_eq_false_2
              by (intros ->; by apply (Hs oi))|].
    split; [done|]. split; [done|].
    destruct Hnew as (new & -> & Hnew). exists ((smi, oi) :: new).
    split; [by rewrite <- app_assoc|].
    intros s i Hi. apply elem_of_cons in Hi as [[= -> ->]|Hi]; [done | by apply Hnew].
  - edestruct (IH (S k) valid) as (valid' & bad & w' & Hrun & Hsuf & Hoth & Hnp & Hinv & Hbad & Hnew);
      [lia|].
    exists valid', (oi :: bad), w'. split; [exact Hrun|].
    split; [etrans; [|exact Hsuf]; by do 2 apply suffix_cons_r|].
    split; [intros p Hp; rewrite Hoth by done; simpl; by rewrite !Hp|].
    split; [intros s Hs; rewrite Hnp by done; simpl; by rewrite bool_decide_eq_false_2
              by (intros ->; by apply (Hs oi))|].
    split; [rewrite Hinv; simpl; by rewrite <- app_assoc|].
    split; [|done].
    intros i Hi. apply elem_of_cons in Hi as [->|Hi]; [eauto | by apply Hbad].
Qed.


(** The indices a round stores results under are indices of the
    original list: the condition under which assembly does not raise. *)
Lemma round_results_in_range (env : Env) (cfg : Config) (round_desc : Round)
    (all_smiles : list string) (w : World) (valid : list WorkItem) (w' : World) :
  validate env all_smiles w = Done valid w' →
  Forall (λ r, r.2 < length all_smiles)
    (all_hsp_full (final_state
       (process_smiles_batch env cfg round_desc all_smiles valid w'))).
Proof.
  intros Hv.
  destruct (process_smiles_batch_spec env cfg round_desc all_smiles valid w')
    as (_ & _ & Hin & _).
  eapply Forall_impl; [exact Hin|]. intros [df i] Hi. simpl in *.
  apply list_elem_of_fmap in Hi as ([smi j] & -> & Hj). simpl.
  unfold validate in Hv.
  destruct (validate_loop_spec env (kept all_smiles) 0 [] w)
    as (valid0 & bad & w0 & Hrun & _ & _ & _ & _ & _ & new & Hvalid & Hnew).
  rewrite drop_0, <- without_sentinel_kept in Hrun.
  change (imap (λ i x, (0 + i, x)) (without_sentinel all_smiles))
    with (enumerate (without_sentinel all_smiles)) in Hrun.
  change ((kept all_smiles).*1) with (valid_smiles_indices_of all_smiles) in Hrun.
  rewrite Hrun in Hv. injection Hv as <- <-. simpl in Hvalid. subst valid0.
  apply Hnew, elem_of_kept in Hj as [Hj _]. by eapply lookup_lt_Some.
Qed.



(** ** Properties of the PubChem lookup *)

Module PubChemProps.

Import PubChem.





Example formaldehyde_is_printed :
  cli env_formaldehyde ["lookup"; "50-00-0"] = (["CID: 712"; "MolecularFormula: CH2O"], None).
Proof. vm_compute. reflexivity. Qed.

End PubChemProps.
